(** * Hive: navigation engine of a small knowledge graph

    A shallow embedding of [src/core/hive.ts] (class [Hive]), together with
    the parts of [src/core/types.ts] and [src/storage/json-storage.ts] that
    it reads.  JavaScript values are modelled by their JSON shape, objects
    by the finite map of their own enumerable properties, the [Map] of
    journeys and the directory of hex files by finite maps, and the
    asynchronous methods by a state-and-exception monad over the [World]
    (hex files, in-memory journeys, journey log file). *)

From Stdlib Require Import QArith Qcanon.
From stdpp Require Import gmap strings list fin_maps sorting pretty.

Set Default Proof Using "Type".
#[local] Set Warnings "-register-all".

(* ================================================================== *)
(** * JavaScript runtime pieces used by the engine *)
(* ================================================================== *)

(** ** Exceptions and the result of a computation that may throw *)

Inductive Exn :=
| TypeError   (* e.g. iterating a value that is not iterable *)
| IOError.    (* a rejected file-system promise *)

Inductive Res (A : Type) :=
| Ret (a : A)
| Throw (e : Exn).
Arguments Ret {A} a.
Arguments Throw {A} e.

#[global] Instance res_ret : MRet Res := λ A a, Ret a.
#[global] Instance res_bind : MBind Res := λ A B k r,
  match r with
  | Ret a => k a
  | Throw e => Throw e
  end.

(** [for (const x of xs) { acc = body(acc, x) }] where the body may throw. *)
Fixpoint for_of {A S} (xs : list A) (body : S → A → Res S) (acc : S) : Res S :=
  match xs with
  | [] => Ret acc
  | x :: xs' => acc' ← body acc x; for_of xs' body acc'
  end.

(** ** Values

    [unknown] payloads and hex data are JSON documents (they arrive through
    [JSON.parse] or the tool-calling surface) or [undefined].  Numbers are
    only copied and compared by the engine, never computed with; they are
    modelled by integers.  Strings are ASCII text. *)

Inductive Value :=
| VUndefined
| VNull
| VBool (b : bool)
| VNum (n : Z)
| VStr (s : string)
| VArr (l : list Value)
| VObj (m : gmap string Value).

(** [!!v] *)
Definition truthy (v : Value) : bool :=
  match v with
  | VUndefined | VNull => false
  | VBool b => b
  | VNum n => negb (n =? 0)%Z
  | VStr s => negb (String.eqb s EmptyString)
  | VArr _ | VObj _ => true
  end.

Inductive JsType := TUndefined | TObject | TBoolean | TNumber | TString.

(** [typeof v] *)
Definition typeof (v : Value) : JsType :=
  match v with
  | VUndefined => TUndefined
  | VNull | VArr _ | VObj _ => TObject
  | VBool _ => TBoolean
  | VNum _ => TNumber
  | VStr _ => TString
  end.

Definition is_object_type (t : JsType) : bool :=
  match t with TObject => true | _ => false end.

(** [Array.isArray(v)] *)
Definition isArray (v : Value) : bool :=
  match v with VArr _ => true | _ => false end.

(** The own enumerable string-keyed properties of a value, as [{...v}] and
    [Object.keys(v)] see them: the entries of an object, the decimal
    indices of an array or of a string, nothing for the other values. *)
Definition indexed {A} (f : A → Value) (l : list A) : gmap string Value :=
  list_to_map (imap (λ i x, (pretty i, f x)) l).

Definition chars (s : string) : list string :=
  (λ c, String c EmptyString) <$> String.list_ascii_of_string s.

Definition own_entries (v : Value) : gmap string Value :=
  match v with
  | VObj m => m
  | VArr l => indexed id l
  | VStr s => indexed VStr (chars s)
  | _ => ∅
  end.

(** [Object.keys(v).includes(key)] *)
Definition has_own_key (v : Value) (key : string) : bool :=
  bool_decide (is_Some (own_entries v !! key)).

(** [v[key]], as far as a comparison with a JSON value can tell: own
    enumerable properties and the [length] of arrays and strings.  What is
    reached through the prototype chain is a function or a prototype
    object, which no JSON value is strictly equal to; it reads as
    [VUndefined] here. *)
Definition get_property (v : Value) (key : string) : Value :=
  match own_entries v !! key with
  | Some x => x
  | None =>
      if String.eqb key "length" then
        match v with
        | VArr l => VNum (Z.of_nat (length l))
        | VStr s => VNum (Z.of_nat (String.length s))
        | _ => VUndefined
        end
      else VUndefined
  end.

(** [a === b] for a value [a] read from a payload and a value [b] parsed
    from a stored record: primitives compare by value, and an array or
    object of the one is never the same reference as one of the other. *)
Definition strict_eq (a b : Value) : bool :=
  match a, b with
  | VUndefined, VUndefined => true
  | VNull, VNull => true
  | VBool x, VBool y => bool_decide (x = y)
  | VNum x, VNum y => bool_decide (x = y)
  | VStr x, VStr y => bool_decide (x = y)
  | _, _ => false
  end.

(** ** [Array.prototype.slice] *)

(** A relative index of [slice]: negative indices count from the end, and
    the result is clamped to [0 .. len]. *)
Definition relative_index (len i : Z) : Z :=
  if (i <? 0)%Z then Z.max (len + i) 0 else Z.min i len.

(** [l.slice(start, stop)]; [stop = None] is an omitted second argument. *)
Definition slice {A} (l : list A) (start : Z) (stop : option Z) : list A :=
  let len := Z.of_nat (length l) in
  let k := relative_index len start in
  let final := match stop with
               | Some e => relative_index len e
               | None => len
               end in
  take (Z.to_nat (final - k)%Z) (drop (Z.to_nat k) l).

(** ** [Set] of strings, in insertion order *)

Definition set_add (w : string) (s : list string) : list string :=
  if bool_decide (w ∈ s) then s else s ++ [w].

(** [for (const w of ws) s.add(w)]; [new Set(ws)] is [set_add_all ws []]. *)
Definition set_add_all (ws : list string) (s : list string) : list string :=
  foldl (λ acc w, set_add w acc) s ws.

(** ** [Array.prototype.sort] with a numeric comparator

    The sort is stable: [x] is placed before the first later element [y]
    that it does not have to follow, i.e. with [cmp x y ≤ 0]. *)
Section sort.
Context {A : Type} (cmp : A → A → Qc).

Fixpoint sort_insert (x : A) (l : list A) : list A :=
  match l with
  | [] => [x]
  | y :: l' =>
      if decide (cmp x y ≤ 0)%Qc then x :: y :: l'
      else y :: sort_insert x l'
  end.

Definition js_sort (l : list A) : list A := foldr sort_insert [] l.

(** [x] may stand before [y] in the sorted array. *)
Definition precedes (x y : A) : Prop := (cmp x y ≤ 0)%Qc.
End sort.

(* ================================================================== *)
(** * Lexical matcher *)
(* ================================================================== *)

(** ** [tokenize] *)

Definition ascii_between (lo hi : nat) (c : Ascii.ascii) : bool :=
  let n := Ascii.nat_of_ascii c in (lo <=? n) && (n <=? hi).

(** [toLowerCase] on one ASCII character. *)
Definition lower_char (c : Ascii.ascii) : Ascii.ascii :=
  if ascii_between 65 90 c
  then Ascii.ascii_of_nat (Ascii.nat_of_ascii c + 32)
  else c.

Definition toLowerCase (s : string) : string :=
  String.string_of_list_ascii (lower_char <$> String.list_ascii_of_string s).

(** The class [\s]: tab, line feed, vertical tab, form feed, carriage
    return, space. *)
Definition is_whitespace (c : Ascii.ascii) : bool :=
  ascii_between 9 13 c || ascii_between 32 32 c.

(** The class [[a-z0-9\s]]: what [replace] with [/[^a-z0-9\s]/g] keeps. *)
Definition kept_char (c : Ascii.ascii) : bool :=
  ascii_between 97 122 c || ascii_between 48 57 c || is_whitespace c.

Definition strip_chars (s : string) : string :=
  String.string_of_list_ascii (filter (λ c, kept_char c) (String.list_ascii_of_string s)).

(** [s.split(/\s+/)]: [cur] is the piece being read, [in_ws] tells that the
    previous character belonged to a separator. *)
Fixpoint split_ws_aux (in_ws : bool) (cur : string) (s : string) : list string :=
  match s with
  | EmptyString => [cur]
  | String c s' =>
      if is_whitespace c then
        if in_ws then split_ws_aux true cur s'
        else cur :: split_ws_aux true EmptyString s'
      else split_ws_aux false (cur +:+ String c EmptyString) s'
  end.

Definition split_ws (s : string) : list string := split_ws_aux false EmptyString s.

Definition tokenize (text : string) : list string :=
  filter (λ w, 2 < String.length w) (split_ws (strip_chars (toLowerCase text))).

(** ** The concept map *)

(** The entries of the object literal, in the order [Object.entries] lists
    them. *)
Definition CONCEPT_MAP : list (string * list string) :=
  [ ("button", ["interactive"; "form"; "click"; "input"; "ui"; "element"]);
    ("deploy", ["ship"; "ops"; "launch"; "release"; "production"; "ci"; "cd"]);
    ("database", ["schema"; "data"; "table"; "model"; "prisma"; "sql"]);
    ("style", ["css"; "design"; "theme"; "color"; "token"; "tailwind"]);
    ("auth", ["login"; "signup"; "session"; "permission"; "security"; "authentication"]);
    ("test", ["qa"; "quality"; "check"; "audit"; "verify"; "testing"]);
    ("api", ["backend"; "server"; "endpoint"; "route"; "action"; "rest"]);
    ("layout", ["spacing"; "grid"; "responsive"; "breakpoint"; "flex"; "gap"]);
    ("text", ["typography"; "font"; "heading"; "copy"; "writing"]);
    ("image", ["performance"; "optimization"; "loading"; "asset"; "media"]);
    ("error", ["handling"; "validation"; "message"; "boundary"; "catch"]);
    ("form", ["input"; "validation"; "field"; "submit"; "interactive"]);
    ("component", ["ui"; "element"; "widget"; "block"; "module"]);
    ("animation", ["motion"; "transition"; "hover"; "easing"; "duration"]);
    ("color", ["theme"; "palette"; "token"; "dark"; "light"; "mode"]);
    ("accessibility", ["a11y"; "wcag"; "aria"; "screen"; "reader"; "keyboard"; "focus"]);
    ("seo", ["search"; "meta"; "og"; "social"; "crawl"; "sitemap"]);
    ("setup", ["scaffold"; "init"; "initialize"; "new"; "project"; "start"]);
    ("code", ["typescript"; "react"; "standards"; "patterns"; "naming"]);
    ("copy", ["writing"; "ux"; "microcopy"; "label"; "message"; "voice"]) ].

(** [CONCEPT_MAP] is a plain object literal, so [CONCEPT_MAP[word]] also
    finds what the object inherits from [Object.prototype]. *)
Definition object_prototype_members : list string :=
  [ "constructor"; "hasOwnProperty"; "isPrototypeOf"; "propertyIsEnumerable";
    "toLocaleString"; "toString"; "valueOf"; "__proto__";
    "__defineGetter__"; "__defineSetter__"; "__lookupGetter__"; "__lookupSetter__" ].

Inductive Lookup :=
| Own (synonyms : list string)   (* an entry of the literal *)
| Inherited                      (* a function or the prototype: truthy, not iterable *)
| Missing.                       (* [undefined] *)

Definition is_inherited (word : string) : bool :=
  bool_decide (word ∈ object_prototype_members).

Fixpoint assoc {V} (key : string) (entries : list (string * V)) : option V :=
  match entries with
  | [] => None
  | (k, v) :: rest => if String.eqb k key then Some v else assoc key rest
  end.

(** [table[word]] on an object literal with the given entries. *)
Definition concept_lookup (table : list (string * list string)) (word : string) : Lookup :=
  match assoc word table with
  | Some synonyms => Own synonyms
  | None => if is_inherited word then Inherited else Missing
  end.

(** ** [expandWithSynonyms] *)

Section expand.
Variable table : list (string * list string).

(** The second loop of the body: every entry that lists [word] as a
    synonym contributes its key and all its synonyms. *)
Definition expand_by_value (word : string) (expanded : list string) : list string :=
  foldl (λ acc '(key, synonyms),
           if bool_decide (word ∈ synonyms)
           then set_add_all synonyms (set_add key acc)
           else acc)
        expanded table.

(** One turn of [for (const word of words)]. *)
Definition expand_word (expanded : list string) (word : string) : Res (list string) :=
  expanded' ← match concept_lookup table word with
              | Own synonyms => Ret (set_add_all synonyms expanded)
              | Inherited => Throw TypeError
              | Missing => Ret expanded
              end;
  Ret (expand_by_value word expanded').

Definition expand_with (words : list string) : Res (list string) :=
  for_of words expand_word (set_add_all words []).
End expand.

Definition expandWithSynonyms (words : list string) : Res (list string) :=
  expand_with CONCEPT_MAP words.

(** ** [wordOverlap] *)

Definition wordOverlap (a b : list string) : nat :=
  length (filter (λ w, w ∈ b) a).

(* ================================================================== *)
(** * Data model ([src/core/types.ts]) *)
(* ================================================================== *)

Inductive HexType := data_hex | tool_hex | gateway_hex | junction_hex.

(** An optional field is an [option]; a record that the engine walks with
    [Object.entries] is given by its entries in that order. *)
Record EdgeCondition := {
  cond_intent : option string;
  hasData : option (list string);
  lacks : option (list string);
  cond_match : option (list (string * Value));
  always : option bool;
}.

Record EdgeTransform := {
  pick : option (list string);
  omit : option (list string);
  inject : option (gmap string Value);
  rename : option (list (string * string));
}.

Record Edge := {
  edge_id : string;
  to : string;
  when : EdgeCondition;
  transform : option EdgeTransform;
  priority : Z;
  edge_description : string;
}.

Record HexContents := {
  data : Value;                    (* [VUndefined] when the field is absent *)
  refs : option (list string);
  tools : option (list Value);
}.

Record Hex := {
  hex_id : string;
  name : string;
  type : HexType;
  contents : HexContents;
  entryHints : list string;
  edges : list Edge;
  tags : list string;
  description : option string;
  created : string;
  updated : string;
}.

Record AgentContext := {
  intent : option string;
  payload : Value;                 (* [VUndefined] when the field is absent *)
  visited : option (list string);
  origin : option string;
  depth : option Z;
}.

Record QueryResult := {
  hex : Hex;
  score : Qc;
  matchedHints : list string;
}.

Record TraversalResult := {
  success : bool;
  destination : string;
  result_payload : Value;          (* [VUndefined] when the field is absent *)
  external : option bool;
  error : option string;
}.

Inductive Action := enter_action | exit_action | deposit_action | query_action.

Record JourneyStep := {
  hexId : string;
  action : Action;
  timestamp : string;
  step_payload : Value;
  edgeId : option string;
}.

Inductive JourneyStatus := active | completed | failed.

Record Journey := {
  journey_id : string;
  agentId : string;
  started : string;
  ended : option string;
  steps : list JourneyStep;
  status : JourneyStatus;
}.

(** A line of [journeys.jsonl]: [{ ...step, journeyId }]. *)
Record LogEntry := {
  entry_step : JourneyStep;
  journeyId : string;
}.

(* ================================================================== *)
(** * The world the engine runs in *)
(* ================================================================== *)

(** - [hexDir]: the files [hexes/<key>.json] that parse and validate, by
      key (a file that does not is skipped by [getAllHexes] and read as
      [null] by [getHex], exactly like a missing one);
    - [journeys]: the private [Map] of the [Hive] instance;
    - [journeyLogFile]: the entries of [journeys.jsonl], one per line as
      [logStep] writes them, [None] when the file does not exist or cannot
      be read. *)
Record World := {
  hexDir : gmap string Hex;
  journeys : gmap string Journey;
  journeyLogFile : option (list LogEntry);
}.

(** What the environment decides during one call: the reading of the
    system clock ([new Date().toISOString()]), and whether [appendFile] on
    the journey log and [writeFile] on a hex file succeed. *)
Record Env := {
  now : string;
  append_ok : bool;
  write_ok : bool;
}.

(** Asynchronous methods: state passing over the world, with exceptions
    (rejected promises). *)
Definition M (A : Type) : Type := World → Res A * World.

#[global] Instance m_ret : MRet M := λ A a w, (Ret a, w).
#[global] Instance m_bind : MBind M := λ A B k m w,
  match m w with
  | (Ret a, w') => k a w'
  | (Throw e, w') => (Throw e, w')
  end.

(** [try { m } catch { handler }] *)
Definition try_catch {A} (m : M A) (handler : M A) : M A := λ w,
  match m w with
  | (Ret a, w') => (Ret a, w')
  | (Throw _, w') => handler w'
  end.

(** A synchronous computation inside an asynchronous method. *)
Definition lift {A} (r : Res A) : M A := λ w, (r, w).

(** ** Storage ([src/storage/json-storage.ts]) and the file system *)

Definition getHex (id : string) : M (option Hex) := λ w,
  (Ret (hexDir w !! id), w).

(** The order of [readdir] is the order in which the map lists its keys. *)
Definition getAllHexes : M (list Hex) := λ w,
  (Ret ((map_to_list (hexDir w)).*2), w).

Definition saveHex (env : Env) (h : Hex) : M unit := λ w,
  if write_ok env
  then (Ret (), {| hexDir := <[hex_id h := h]> (hexDir w);
                   journeys := journeys w;
                   journeyLogFile := journeyLogFile w |})
  else (Throw IOError, w).

Definition appendFile (env : Env) (entry : LogEntry) : M unit := λ w,
  if append_ok env
  then (Ret (), {| hexDir := hexDir w;
                   journeys := journeys w;
                   journeyLogFile := Some (default [] (journeyLogFile w) ++ [entry]) |})
  else (Throw IOError, w).

Definition readFile : M (list LogEntry) := λ w,
  match journeyLogFile w with
  | Some entries => (Ret entries, w)
  | None => (Throw IOError, w)
  end.

Definition update_journeys (f : gmap string Journey → gmap string Journey) : M unit := λ w,
  (Ret (), {| hexDir := hexDir w;
              journeys := f (journeys w);
              journeyLogFile := journeyLogFile w |}).

(* ================================================================== *)
(** * The engine ([src/core/hive.ts], class [Hive]) *)
(* ================================================================== *)

(** A string-valued optional field used as a condition: absent and empty
    strings are falsy. *)
Definition truthy_string (s : option string) : option string :=
  match s with
  | Some s' => if String.eqb s' EmptyString then None else Some s'
  | None => None
  end.

(** ** [query] *)

(** Scores are doubles in the source; here they are exact rationals.  The
    engine only adds the non-negative terms below and compares the sums. *)
Definition half : Qc := Q2Qc (1 # 2).
Definition three_tenths : Qc := Q2Qc (3 # 10).
Definition Qc_of_nat (n : nat) : Qc := Qc_of_Z (Z.of_nat n).

(** The loop over [hex.entryHints]: the state is [(matchedHints, score)]. *)
Definition score_hint (expandedIntent : list string)
    (acc : list string * Qc) (hint : string) : Res (list string * Qc) :=
  expandedHint ← expandWithSynonyms (tokenize hint);
  let overlap := wordOverlap expandedIntent expandedHint in
  if bool_decide (0 < overlap)
  then Ret (acc.1 ++ [hint], (acc.2 + Qc_of_nat overlap)%Qc)
  else Ret acc.

(** The loop over [hex.tags]. *)
Definition score_tags (expandedIntent : list string) (tags : list string) (score : Qc) : Qc :=
  foldl (λ sc tag, if bool_decide (toLowerCase tag ∈ expandedIntent)
                   then (sc + half)%Qc else sc)
        score tags.

(** The body of [for (const hex of hexes)]: the state is [results]. *)
Definition score_hex (expandedIntent : list string)
    (results : list QueryResult) (h : Hex) : Res (list QueryResult) :=
  '(matched, score) ← for_of (entryHints h) (score_hint expandedIntent) ([], 0%Qc);
  expandedName ← expandWithSynonyms (tokenize (name h));
  let nameOverlap := wordOverlap expandedIntent expandedName in
  let score := (score + Qc_of_nat nameOverlap * half)%Qc in
  score ← match truthy_string (description h) with
          | Some d =>
              expandedDesc ← expandWithSynonyms (tokenize d);
              let descOverlap := wordOverlap expandedIntent expandedDesc in
              Ret (score + Qc_of_nat descOverlap * three_tenths)%Qc
          | None => Ret score
          end;
  let score := score_tags expandedIntent (tags h) score in
  if decide (0 < score)%Qc
  then Ret (results ++ [{| hex := h; score := score; matchedHints := matched |}])
  else Ret results.

(** The comparator [(a, b) => b.score - a.score]. *)
Definition by_score (a b : QueryResult) : Qc := (score b - score a)%Qc.

Definition default_query_limit : Z := 5.

(** [limit = None] is an omitted argument.  [slice] truncates a fractional
    bound towards zero, so a limit is an integer here. *)
Definition query (intentText : string) (limit : option Z) : M (list QueryResult) :=
  hexes ← getAllHexes;
  expandedIntent ← lift (expandWithSynonyms (tokenize intentText));
  results ← lift (for_of hexes (score_hex expandedIntent) []);
  mret (slice (js_sort by_score results) 0 (Some (default default_query_limit limit))).

(** ** [evaluateCondition] *)

Definition evaluateCondition (condition : EdgeCondition) (context : AgentContext) : Res bool :=
  if default false (always condition) then Ret true else
  intent_ok ← match truthy_string (cond_intent condition), truthy_string (intent context) with
              | Some cond_text, Some ctx_text =>
                  expandedCondition ← expandWithSynonyms (tokenize cond_text);
                  expandedIntent ← expandWithSynonyms (tokenize ctx_text);
                  Ret (negb (wordOverlap expandedCondition expandedIntent =? 0))
              | _, _ => Ret true
              end;
  if negb intent_ok then Ret false else
  let hasAll := match hasData condition with
                | Some keys =>
                    if truthy (payload context)
                    then forallb (has_own_key (payload context)) keys
                    else true
                | None => true
                end in
  if negb hasAll then Ret false else
  let lacksAny := match lacks condition with
                  | Some keys =>
                      if truthy (payload context)
                      then existsb (λ key, negb (has_own_key (payload context) key)) keys
                      else true
                  | None => true
                  end in
  if negb lacksAny then Ret false else
  let matches := match cond_match condition with
                 | Some entries =>
                     if truthy (payload context)
                     then forallb (λ '(key, value),
                                     strict_eq (get_property (payload context) key) value)
                                  entries
                     else true
                 | None => true
                 end in
  Ret matches.

(** ** [applyTransform]

    [key in result] is read as "[key] is an own property of [result]": keys
    that name members of [Object.prototype] are outside this model. *)

Definition apply_pick (keys : list string) (result : gmap string Value) : gmap string Value :=
  foldl (λ picked key,
           match result !! key with
           | Some v => <[key := v]> picked
           | None => picked
           end)
        ∅ keys.

Definition apply_omit (keys : list string) (result : gmap string Value) : gmap string Value :=
  foldl (λ r key, delete key r) result keys.

Definition apply_rename (entries : list (string * string)) (result : gmap string Value)
    : gmap string Value :=
  foldl (λ r '(from, to_key),
           match r !! from with
           | Some v => delete from (<[to_key := v]> r)
           | None => r
           end)
        result entries.

Definition apply_inject (extra : gmap string Value) (result : gmap string Value)
    : gmap string Value :=
  extra ∪ result.

Definition applyTransform (payload : Value) (transform : EdgeTransform) : Value :=
  if negb (truthy payload) || negb (is_object_type (typeof payload)) then payload else
  let result := own_entries payload in
  let result := match pick transform with
                | Some keys => apply_pick keys result
                | None => result
                end in
  let result := match omit transform with
                | Some keys => apply_omit keys result
                | None => result
                end in
  let result := match rename transform with
                | Some entries => apply_rename entries result
                | None => result
                end in
  let result := match inject transform with
                | Some extra => apply_inject extra result
                | None => result
                end in
  VObj result.

(** ** [logStep] *)

Definition new_journey (env : Env) (journeyId : string) : Journey :=
  {| journey_id := journeyId; agentId := journeyId; started := now env;
     ended := None; steps := []; status := active |}.

Definition push_step (step : JourneyStep) (j : Journey) : Journey :=
  {| journey_id := journey_id j; agentId := agentId j; started := started j;
     ended := ended j; steps := steps j ++ [step]; status := status j |}.

Definition logStep (env : Env) (context : AgentContext) (step : JourneyStep) : M unit :=
  let journeyId := default "anonymous" (truthy_string (origin context)) in
  update_journeys (λ js, match js !! journeyId with
                         | Some _ => js
                         | None => <[journeyId := new_journey env journeyId]> js
                         end);;
  update_journeys (alter (push_step step) journeyId);;
  try_catch (appendFile env {| entry_step := step; journeyId := journeyId |})
            (mret ()).

(** ** [enter] *)

Definition enter (env : Env) (hexId : string) (context : option AgentContext) : M (option Hex) :=
  h ← getHex hexId;
  match h, context with
  | Some _, Some ctx =>
      logStep env ctx {| hexId := hexId; action := enter_action; timestamp := now env;
                         step_payload := payload ctx; edgeId := None |}
  | _, _ => mret ()
  end;;
  mret h.

(** ** [traverse] *)

Definition failure (dest : string) (msg : string) : TraversalResult :=
  {| success := false; destination := dest; result_payload := VUndefined;
     external := None; error := Some msg |}.

Definition traverse (env : Env) (fromHexId edgeId : string) (context : AgentContext)
    : M TraversalResult :=
  h ← getHex fromHexId;
  match h with
  | None => mret (failure EmptyString "Source hex not found")
  | Some h =>
      match List.find (λ e, String.eqb (edge_id e) edgeId) (edges h) with
      | None => mret (failure EmptyString "Edge not found")
      | Some edge =>
          holds ← lift (evaluateCondition (when edge) context);
          if negb holds then mret (failure (to edge) "Edge condition not met") else
          let payload := match transform edge with
                         | Some t => applyTransform (payload context) t
                         | None => payload context
                         end in
          logStep env context {| hexId := fromHexId; action := exit_action;
                                 timestamp := now env; step_payload := payload;
                                 edgeId := Some edgeId |};;
          let isExternal := String.prefix "external:" (to edge) in
          mret {| success := true; destination := to edge; result_payload := payload;
                  external := Some isExternal; error := None |}
      end
  end.

(** ** [deposit] *)

Definition elements_of (v : Value) : list Value :=
  match v with VArr l => l | _ => [] end.

(** The value stored in [hex.contents.data]. *)
Definition merge_data (existingData incoming : Value) : Value :=
  if isArray existingData && isArray incoming
  then VArr (elements_of existingData ++ elements_of incoming)
  else if is_object_type (typeof existingData) && is_object_type (typeof incoming)
  then VObj (own_entries incoming ∪ own_entries existingData)
  else incoming.

Definition with_data (env : Env) (h : Hex) (d : Value) : Hex :=
  {| hex_id := hex_id h; name := name h; type := type h;
     contents := {| data := d; refs := refs (contents h); tools := tools (contents h) |};
     entryHints := entryHints h; edges := edges h; tags := tags h;
     description := description h; created := created h; updated := now env |}.

Definition deposit (env : Env) (hexId : string) (incoming : Value)
    (context : option AgentContext) : M bool :=
  h ← getHex hexId;
  match h with
  | None => mret false
  | Some h =>
      saveHex env (with_data env h (merge_data (data (contents h)) incoming));;
      match context with
      | Some ctx =>
          logStep env ctx {| hexId := hexId; action := deposit_action; timestamp := now env;
                             step_payload := incoming; edgeId := None |}
      | None => mret ()
      end;;
      mret true
  end.

(** ** [getJourneyLog] *)

Definition default_log_limit : Z := 100.

(** The entries come back as they were parsed, [journeyId] included. *)
Definition getJourneyLog (limit : option Z) : M (list LogEntry) :=
  try_catch (entries ← readFile;
             mret (slice entries (- default default_log_limit limit) None))
            (mret []).


(* ================================================================== *)
(** * Notions used to state the properties *)
(* ================================================================== *)

(** [x] is brought in by [word] in one step of synonym expansion: it is a
    synonym listed under the key [word], or [word] is listed under some key
    and [x] is that key or another synonym listed there. *)
Definition brought_in (table : list (string * list string)) (word x : string) : Prop :=
  (∃ synonyms, assoc word table = Some synonyms ∧ x ∈ synonyms) ∨
  (∃ key synonyms, (key, synonyms) ∈ table ∧ word ∈ synonyms ∧ (x = key ∨ x ∈ synonyms)).

(** No word of the text makes [CONCEPT_MAP[word]] reach [Object.prototype]. *)
Definition plain_words (words : list string) : Prop :=
  Forall (λ word, is_inherited word = false) words.

Definition plain_text (text : string) : Prop := plain_words (tokenize text).

#[global] Instance plain_words_dec words : Decision (plain_words words).
Proof. unfold plain_words. apply _. Defined.

#[global] Instance plain_text_dec text : Decision (plain_text text).
Proof. unfold plain_text. apply _. Defined.

(** The texts that [query] tokenizes and expands: the intent, then for each
    hex its entry hints, its name and its description when it has one. *)
Definition hex_texts (h : Hex) : list string :=
  entryHints h ++ [name h] ++ option_list (truthy_string (description h)).

Definition query_texts (intentText : string) (w : World) : list string :=
  intentText :: ((map_to_list (hexDir w)).*2 ≫= hex_texts).

(** The order of a ranked result list: scores do not increase. *)
Definition ranked_before (a b : QueryResult) : Prop := (score b ≤ score a)%Qc.

(** A store and an intent on which two hexes are ranked. *)
Definition sample_hex (id title : string) (hints tags : list string) (es : list Edge)
    (d : Value) : Hex :=
  {| hex_id := id; name := title; type := data_hex;
     contents := {| data := d; refs := None; tools := None |};
     entryHints := hints; edges := es; tags := tags; description := None;
     created := "2026-02-06T00:00:00.000Z"; updated := "2026-02-06T00:00:00.000Z" |}.

Definition ranking_world : World :=
  {| hexDir := {[ "interactive-elements" :=
                    sample_hex "interactive-elements" "Interactive Elements"
                      ["interactive widgets"; "click targets"] ["ui"] [] VNull;
                  "ops-ship" :=
                    sample_hex "ops-ship" "Ops and Ship" ["ship to production"] ["ops"] [] VNull;
                  "forms" :=
                    sample_hex "forms" "Forms" ["form fields"] [] [] VNull ]};
     journeys := ∅;
     journeyLogFile := None |}.

(** A condition with its intent clause removed, and with its payload
    clauses removed. *)
Definition without_intent (c : EdgeCondition) : EdgeCondition :=
  {| cond_intent := None; hasData := hasData c; lacks := lacks c;
     cond_match := cond_match c; always := always c |}.

Definition without_payload_clauses (c : EdgeCondition) : EdgeCondition :=
  {| cond_intent := cond_intent c; hasData := None; lacks := None;
     cond_match := None; always := always c |}.

Definition no_payload_context (text : option string) : AgentContext :=
  {| intent := text; payload := VUndefined; visited := None; origin := None; depth := None |}.

(** The four operations of a transform, as the specification words them. *)





(** [inject]: shallow-merge the fixed pairs, overwriting on conflict. *)
Definition spec_inject (extra : gmap string Value) (m : gmap string Value)
    : gmap string Value :=
  union_with (λ injected _, Some injected) extra m.

(** An absent operation is skipped. *)
Definition when_present {A} (op : A → gmap string Value → gmap string Value)
    (field : option A) (m : gmap string Value) : gmap string Value :=
  match field with
  | Some a => op a m
  | None => m
  end.


Definition abc_payload : Value :=
  VObj {[ "a" := VNum 1; "b" := VNum 2; "c" := VNum 3 ]}.

Definition abc_transform : EdgeTransform :=
  {| pick := Some ["a"; "b"]; omit := None;
     inject := Some {[ "y" := VNum 9 ]}; rename := Some [("a", "x")] |}.

(** The same environment with the outcome of [appendFile] fixed. *)
Definition with_append (ok : bool) (env : Env) : Env :=
  {| now := now env; append_ok := ok; write_ok := write_ok env |}.

(** Two runs agree on what the caller gets (a value or an exception), on
    the hex files and on the in-memory journeys. *)
Definition agree {A} (run1 run2 : Res A * World) : Prop :=
  run1.1 = run2.1 ∧ hexDir run1.2 = hexDir run2.2 ∧ journeys run1.2 = journeys run2.2.

(** The journeys after [logStep] has recorded [step] for [context]. *)
Definition journey_key (context : AgentContext) : string :=
  default "anonymous" (truthy_string (origin context)).

Definition recorded (env : Env) (context : AgentContext) (step : JourneyStep)
    (js : gmap string Journey) : gmap string Journey :=
  alter (push_step step) (journey_key context)
    (match js !! journey_key context with
     | Some _ => js
     | None => <[journey_key context := new_journey env (journey_key context)]> js
     end).

Definition appended (env : Env) (entry : LogEntry) (file : option (list LogEntry))
    : option (list LogEntry) :=
  if append_ok env then Some (default [] file ++ [entry]) else file.

(** Sample environments, contexts and stores. *)
Definition calm_env : Env :=
  {| now := "2026-02-06T12:00:00.000Z"; append_ok := true; write_ok := true |}.

Definition sample_context (text : option string) (carried : Value) : AgentContext :=
  {| intent := text; payload := carried; visited := None;
     origin := Some "agent-7"; depth := None |}.

Definition sample_edge (id dest : string) (guard : EdgeCondition)
    (t : option EdgeTransform) : Edge :=
  {| edge_id := id; to := dest; when := guard; transform := t;
     priority := 5; edge_description := "sample edge" |}.

Definition intent_guard (text : string) : EdgeCondition :=
  {| cond_intent := Some text; hasData := None; lacks := None;
     cond_match := None; always := None |}.

Definition graph_world : World :=
  {| hexDir := {[ "code-standards" :=
                    sample_hex "code-standards" "Code Standards" ["naming patterns"] ["code"]
                      [ sample_edge "to-testing" "testing-qa" (intent_guard "testing strategy") None;
                        sample_edge "to-crm" "external:salesforce" (intent_guard "update crm")
                          (Some abc_transform) ]
                      (VObj {[ "x" := VNum 1 ]}) ]};
     journeys := ∅;
     journeyLogFile := None |}.

Definition sample_step (id : string) : JourneyStep :=
  {| hexId := id; action := enter_action; timestamp := "2026-02-06T12:00:00.000Z";
     step_payload := VUndefined; edgeId := None |}.

Definition sample_entry (id : string) : LogEntry :=
  {| entry_step := sample_step id; journeyId := "agent-7" |}.

(* ================================================================== *)
(** * The rest of the engine and its callers *)
(* ================================================================== *)

(** ** [nextSteps] *)

(** The comparator [(a, b) => b.priority - a.priority]. *)
Definition by_priority (a b : Edge) : Qc := Qc_of_Z (priority b - priority a).

(** One turn of [for (const edge of hex.edges)]: the state is
    [matchingEdges]. *)
Definition keep_matching (context : AgentContext)
    (matchingEdges : list Edge) (edge : Edge) : Res (list Edge) :=
  holds ← evaluateCondition (when edge) context;
  Ret (if holds : bool then matchingEdges ++ [edge] else matchingEdges).

Definition nextSteps (hexId : string) (context : AgentContext) : M (list Edge) :=
  h ← getHex hexId;
  match h with
  | None => mret []
  | Some h =>
      matchingEdges ← lift (for_of (edges h) (keep_matching context) []);
      mret (js_sort by_priority matchingEdges)
  end.

(** ** Hex management *)

(** [{ ...hex, created: now, updated: now }] *)
Definition stamped (env : Env) (h : Hex) : Hex :=
  {| hex_id := hex_id h; name := name h; type := type h; contents := contents h;
     entryHints := entryHints h; edges := edges h; tags := tags h;
     description := description h; created := now env; updated := now env |}.

(** [warnMissingEdgeTargets] only writes to the console; what it prints is
    not part of the world. *)
Definition createHex (env : Env) (h : Hex) : M Hex :=
  let fullHex := stamped env h in
  saveHex env fullHex;;
  mret fullHex.

Definition listHexes : M (list Hex) := getAllHexes.


(** ** Notions used to state the further properties *)

(** The words the concept map knows: its keys and its synonyms. *)
Definition vocabulary (table : list (string * list string)) : list string :=
  table ≫= (λ entry, entry.1 :: entry.2).

(** A token character: a lowercase letter or a digit. *)
Definition token_char (c : Ascii.ascii) : bool :=
  ascii_between 97 122 c || ascii_between 48 57 c.

Definition token_shaped (word : string) : Prop :=
  2 < String.length word ∧
  Forall (λ c, token_char c = true) (String.list_ascii_of_string word).

(** The guard of an edge holds in a context. *)
Definition guard_holds (context : AgentContext) (edge : Edge) : Prop :=
  evaluateCondition (when edge) context = Ret true.

#[global] Instance Exn_eq_dec : EqDecision Exn.
Proof. solve_decision. Defined.

#[global] Instance Res_eq_dec {A} `{EqDecision A} : EqDecision (Res A).
Proof. solve_decision. Defined.

#[global] Instance guard_holds_dec context edge : Decision (guard_holds context edge).
Proof. unfold guard_holds. apply _. Defined.

(** Edges are listed by non-increasing priority. *)
Definition priority_before (a b : Edge) : Prop := (priority b ≤ priority a)%Z.

(** The step that a call records, and the entry it appends to the log. *)
Definition enter_step (env : Env) (hexId : string) (context : AgentContext) : JourneyStep :=
  {| hexId := hexId; action := enter_action; timestamp := now env;
     step_payload := payload context; edgeId := None |}.


Definition deposit_step (env : Env) (hexId : string) (incoming : Value) : JourneyStep :=
  {| hexId := hexId; action := deposit_action; timestamp := now env;
     step_payload := incoming; edgeId := None |}.


(** The steps of a journey, none when the journey does not exist. *)
Definition steps_of (js : gmap string Journey) (id : string) : list JourneyStep :=
  from_option steps [] (js !! id).


(** A junction with guarded edges of several priorities. *)
Definition always_guard : EdgeCondition :=
  {| cond_intent := None; hasData := None; lacks := None;
     cond_match := None; always := Some true |}.

Definition data_guard (required missing : option (list string)) : EdgeCondition :=
  {| cond_intent := None; hasData := required; lacks := missing;
     cond_match := None; always := None |}.

Definition prioritized (p : Z) (e : Edge) : Edge :=
  {| edge_id := edge_id e; to := to e; when := when e; transform := transform e;
     priority := p; edge_description := edge_description e |}.

Definition junction_edges : list Edge :=
  [ prioritized 1 (sample_edge "back-to-hub" "hub" always_guard None);
    prioritized 5 (sample_edge "to-ops" "ops-ship" (intent_guard "deploy production") None);
    prioritized 10 (sample_edge "to-report" "reports" (data_guard (Some ["report"]) None) None);
    prioritized 5 (sample_edge "to-intake" "intake" (data_guard None (Some ["ticket"]))
                     (Some abc_transform)) ].

Definition junction_world : World :=
  {| hexDir := {[ "junction" :=
                    sample_hex "junction" "Data Router" ["route data"] ["routing"]
                      junction_edges VNull ]};
     journeys := ∅;
     journeyLogFile := None |}.

Definition report_context : AgentContext :=
  sample_context (Some "ship the release") (VObj {[ "report" := VNum 1 ]}).

(** What a guard asks, clause by clause. *)

(** The intent clause: when the condition and the context both carry a
    non-empty intent, their expansions share a word. *)
Definition intent_clause_holds (condition : EdgeCondition) (context : AgentContext) : Prop :=
  ∀ cond_text ctx_text,
    truthy_string (cond_intent condition) = Some cond_text →
    truthy_string (intent context) = Some ctx_text →
    ∃ expandedCondition expandedIntent,
      expandWithSynonyms (tokenize cond_text) = Ret expandedCondition ∧
      expandWithSynonyms (tokenize ctx_text) = Ret expandedIntent ∧
      ∃ word, word ∈ expandedCondition ∧ word ∈ expandedIntent.

(** The payload clauses: every [hasData] key is present, some [lacks] key
    is missing, every [match] value is strictly equal. *)
Definition payload_clauses_hold (condition : EdgeCondition) (carried : Value) : Prop :=
  (∀ keys, hasData condition = Some keys →
           ∀ key, key ∈ keys → is_Some (own_entries carried !! key)) ∧
  (∀ keys, lacks condition = Some keys →
           ∃ key, key ∈ keys ∧ own_entries carried !! key = None) ∧
  (∀ entries, cond_match condition = Some entries →
              ∀ key value, (key, value) ∈ entries →
                           strict_eq (get_property carried key) value = true).

(** An array or an object. *)
Definition is_composite (v : Value) : Prop :=
  match v with VArr _ | VObj _ => True | _ => False end.

Definition with_intent (text : option string) (context : AgentContext) : AgentContext :=
  {| intent := text; payload := payload context; visited := visited context;
     origin := origin context; depth := depth context |}.

(** A payload that [applyTransform] reshapes: truthy and of type "object". *)
Definition object_like (v : Value) : bool :=
  truthy v && is_object_type (typeof v).

(** [key] passes the [pick] and [omit] lists of a transform. *)
Definition selected (t : EdgeTransform) (key : string) : bool :=
  match pick t with
  | Some keys => bool_decide (key ∈ keys)
  | None => true
  end
  && match omit t with
     | Some keys => negb (bool_decide (key ∈ keys))
     | None => true
     end.

Definition rename_only (from to_key : string) : EdgeTransform :=
  {| pick := None; omit := None; inject := None; rename := Some [(from, to_key)] |}.

(** A journal that only grows: every journey keeps its steps as a prefix,
    and the log file keeps its entries as a prefix. *)
Definition journal_extends (w w' : World) : Prop :=
  (∀ id, steps_of (journeys w) id `prefix_of` steps_of (journeys w') id) ∧
  default [] (journeyLogFile w) `prefix_of` default [] (journeyLogFile w').

(** The world with one hex file written. *)
Definition with_hex (key : string) (h : Hex) (w : World) : World :=
  {| hexDir := <[key := h]> (hexDir w); journeys := journeys w;
     journeyLogFile := journeyLogFile w |}.

Definition failing_disk : Env :=
  {| now := "2026-02-06T12:00:00.000Z"; append_ok := true; write_ok := false |}.

(** Nothing of a hex answers the expanded intent: no hint, name or
    description shares a word with it, and no tag is one of its words. *)
Definition silent (expandedIntent : list string) (h : Hex) : Prop :=
  (∀ text expanded, text ∈ hex_texts h →
                    expandWithSynonyms (tokenize text) = Ret expanded →
                    wordOverlap expandedIntent expanded = 0) ∧
  (∀ tag, tag ∈ tags h → toLowerCase tag ∉ expandedIntent).

(* ================================================================== *)
(** * The tool surface (the MCP server and its handlers) *)
(* ================================================================== *)

(** What a handler returns: the value it gives to [JSON.stringify] for the
    text of the response, and [isError] (absent reads as false). *)
Record ToolResponse (A : Type) := {
  body : A;
  isError : bool;
}.
Arguments body {A} _.
Arguments isError {A} _.

(** The arguments after validation: [intent] is an optional string,
    [payload] an optional record of values. *)
Definition tool_context (intentArg : option string)
    (payloadArg : option (gmap string Value)) : AgentContext :=
  {| intent := intentArg; payload := from_option VObj VUndefined payloadArg;
     visited := None; origin := None; depth := None |}.

(** [{ id, to, description, priority }] *)
Record EdgeSummary := {
  summary_id : string;
  summary_to : string;
  summary_description : string;
  summary_priority : Z;
}.

Record HexView := {
  view_id : string;
  view_name : string;
  view_type : HexType;
  view_contents : HexContents;
  view_edges : list EdgeSummary;
  view_tags : list string;
}.

Definition edge_summary (e : Edge) : EdgeSummary :=
  {| summary_id := edge_id e; summary_to := to e;
     summary_description := edge_description e; summary_priority := priority e |}.

Definition hex_view (h : Hex) : HexView :=
  {| view_id := hex_id h; view_name := name h; view_type := type h;
     view_contents := contents h; view_edges := edge_summary <$> edges h;
     view_tags := tags h |}.

(** [hive_enter]: the context is built only when [intent || payload] is
    truthy; the body is [{ error: "Hex not found" }] or the view of the hex. *)
Definition hive_enter (env : Env) (hexId : string) (intentArg : option string)
    (payloadArg : option (gmap string Value)) : M (ToolResponse (string + HexView)) :=
  let context := match truthy_string intentArg, payloadArg with
                 | None, None => None
                 | _, _ => Some (tool_context intentArg payloadArg)
                 end in
  h ← enter env hexId context;
  match h with
  | None => mret {| body := inl "Hex not found"; isError := true |}
  | Some h => mret {| body := inr (hex_view h); isError := false |}
  end.

(** [hive_next_steps]: the body lists [{ id, to, description, priority, when }]. *)
Definition hive_next_steps (hexId : string) (intentArg : option string)
    (payloadArg : option (gmap string Value))
    : M (ToolResponse (list (EdgeSummary * EdgeCondition))) :=
  let context := tool_context intentArg payloadArg in
  es ← nextSteps hexId context;
  mret {| body := (λ e, (edge_summary e, when e)) <$> es; isError := false |}.

(** [hive_traverse] *)
Definition hive_traverse (env : Env) (hexId edgeId : string) (intentArg : option string)
    (payloadArg : option (gmap string Value)) : M (ToolResponse TraversalResult) :=
  let context := tool_context intentArg payloadArg in
  result ← traverse env hexId edgeId context;
  mret {| body := result; isError := negb (success result) |}.

(** [hive_deposit]: the body is [{ success, hexId }]. *)
Definition hive_deposit (env : Env) (hexId : string) (incoming : Value)
    : M (ToolResponse (bool * string)) :=
  ok ← deposit env hexId incoming None;
  mret {| body := (ok, hexId); isError := negb ok |}.

(** The arguments of [hive_create_hex]: edges come without [transform],
    contents without [tools]. *)
Record EdgeArg := {
  arg_edge_id : string;
  arg_to : string;
  arg_edge_description : string;
  arg_priority : Z;
  arg_when : EdgeCondition;
}.

Record ContentsArg := {
  arg_data : Value;                (* [VUndefined] when the field is absent *)
  arg_refs : option (list string);
}.

Record CreateHexArgs := {
  arg_id : string;
  arg_name : string;
  arg_type : HexType;
  arg_entryHints : list string;
  arg_tags : list string;
  arg_description : option string;
  arg_contents : option ContentsArg;
  arg_edges : option (list EdgeArg);
}.

Definition edge_of_arg (e : EdgeArg) : Edge :=
  {| edge_id := arg_edge_id e; to := arg_to e; when := arg_when e; transform := None;
     priority := arg_priority e; edge_description := arg_edge_description e |}.

(** The object given to [createHex]: [contents || { data: null }],
    [edges || []]; [created] and [updated] are set by [createHex]. *)
Definition hex_of_args (args : CreateHexArgs) : Hex :=
  {| hex_id := arg_id args; name := arg_name args; type := arg_type args;
     contents := match arg_contents args with
                 | Some c => {| data := arg_data c; refs := arg_refs c; tools := None |}
                 | None => {| data := VNull; refs := None; tools := None |}
                 end;
     entryHints := arg_entryHints args;
     edges := edge_of_arg <$> default [] (arg_edges args);
     tags := arg_tags args; description := arg_description args;
     created := EmptyString; updated := EmptyString |}.

(** [hive_create_hex]: the body is [{ success: true, hex: { id, name, type } }]. *)
Definition hive_create_hex (env : Env) (args : CreateHexArgs)
    : M (ToolResponse (bool * (string * string * HexType))) :=
  h ← createHex env (hex_of_args args);
  mret {| body := (true, (hex_id h, name h, type h)); isError := false |}.

(** A hex as a client creates it, and what the client carries. *)
Definition inbox_args : CreateHexArgs :=
  {| arg_id := "inbox"; arg_name := "Inbox"; arg_type := junction_hex;
     arg_entryHints := ["incoming mail"]; arg_tags := ["mail"];
     arg_description := None; arg_contents := None;
     arg_edges := Some [ {| arg_edge_id := "to-archive"; arg_to := "archive";
                            arg_edge_description := "File the message";
                            arg_priority := 3;
                            arg_when := data_guard (Some ["message"]) None |} ] |}.

Definition carried_message : gmap string Value := {[ "message" := VStr "hello" ]}.

(** What the journal gains is filed under the journey "anonymous": the
    other journeys are as they were, and the entries added to the log file
    carry that journey id. *)
Definition anonymous_only (w w' : World) : Prop :=
  (∀ id, id ≠ "anonymous" → journeys w' !! id = journeys w !! id) ∧
  ∃ added, default [] (journeyLogFile w') = default [] (journeyLogFile w) ++ added ∧
           Forall (λ entry, journeyId entry = "anonymous") added.
(* ================================================================== *)
(** * Properties of the runtime pieces *)
(* ================================================================== *)

(** ** Membership in a [Set] *)

Lemma elem_of_set_add x w s : x ∈ set_add w s ↔ x = w ∨ x ∈ s.
Proof.
  unfold set_add. case_bool_decide as Hw.
  - split; [auto|]. intros [->|]; done.
  - rewrite elem_of_app, list_elem_of_singleton. tauto.
Qed.

Lemma elem_of_set_add_all x ws s : x ∈ set_add_all ws s ↔ x ∈ ws ∨ x ∈ s.
Proof.
  unfold set_add_all. revert s.
  induction ws as [|w ws IH]; intros s; simpl.
  - rewrite elem_of_nil. tauto.
  - rewrite IH, elem_of_set_add, elem_of_cons. tauto.
Qed.

(** ** [slice] *)

Lemma slice_from_start {A} (l : list A) (stop : Z) :
  slice l 0 (Some stop) = take (Z.to_nat (relative_index (Z.of_nat (length l)) stop)) l.
Proof.
  unfold slice.
  replace (relative_index (Z.of_nat (length l)) 0) with 0%Z
    by (unfold relative_index; simpl; lia).
  simpl. by rewrite Z.sub_0_r.
Qed.

Lemma slice_length_le {A} (l : list A) (stop : Z) :
  (0 ≤ stop)%Z → (Z.of_nat (length (slice l 0 (Some stop))) ≤ stop)%Z.
Proof.
  intros Hstop. rewrite slice_from_start, length_take.
  unfold relative_index. destruct (Z.ltb_spec stop 0); lia.
Qed.

Lemma slice_negative_stop {A} (l : list A) (stop : Z) :
  (stop < 0)%Z → slice l 0 (Some stop) = take (length l - Z.to_nat (- stop)) l.
Proof.
  intros Hstop. rewrite slice_from_start. f_equal.
  unfold relative_index. destruct (Z.ltb_spec stop 0); lia.
Qed.

Lemma slice_all {A} (l : list A) (stop : Z) :
  (Z.of_nat (length l) ≤ stop)%Z → slice l 0 (Some stop) = l.
Proof.
  intros Hstop. rewrite slice_from_start. apply take_ge.
  unfold relative_index. destruct (Z.ltb_spec stop 0); lia.
Qed.

Lemma slice_last {A} (l : list A) (n : Z) :
  (0 < n)%Z → slice l (- n) None = drop (length l - Z.to_nat n) l.
Proof.
  intros Hn. unfold slice, relative_index.
  destruct (Z.ltb_spec (- n) 0); [|lia].
  replace (Z.to_nat (Z.max (Z.of_nat (length l) + - n) 0)) with (length l - Z.to_nat n) by lia.
  apply take_ge. rewrite length_drop. lia.
Qed.

Lemma slice_minus_zero {A} (l : list A) : slice l (- 0) None = l.
Proof.
  unfold slice, relative_index. simpl.
  rewrite Z.min_l, Z.sub_0_r by lia. simpl.
  apply take_ge. lia.
Qed.

(** ** [js_sort] *)

Section sort_facts.
Context {A : Type} (cmp : A → A → Qc).

Hypothesis cmp_total : ∀ x y, ¬ precedes cmp x y → precedes cmp y x.

Lemma sort_insert_Permutation x l : sort_insert cmp x l ≡ₚ x :: l.
Proof.
  induction l as [|y l IH]; simpl; [done|].
  case_decide; [done|]. rewrite IH. apply Permutation_swap.
Qed.

Lemma js_sort_Permutation l : js_sort cmp l ≡ₚ l.
Proof.
  induction l as [|x l IH]; simpl; [done|].
  unfold js_sort in *. simpl. by rewrite sort_insert_Permutation, IH.
Qed.

Lemma HdRel_sort_insert z x l :
  precedes cmp z x → HdRel (precedes cmp) z l → HdRel (precedes cmp) z (sort_insert cmp x l).
Proof.
  intros Hzx Hzl. destruct l as [|y l]; simpl; [by constructor|].
  case_decide; constructor; [done|]. by inversion Hzl.
Qed.

Lemma Sorted_sort_insert x l :
  Sorted (precedes cmp) l → Sorted (precedes cmp) (sort_insert cmp x l).
Proof using cmp_total.
  induction 1 as [|y l Hl IH Hy]; simpl.
  - by repeat constructor.
  - case_decide as Hxy.
    + by repeat constructor.
    + constructor; [done|]. apply HdRel_sort_insert; [|done].
      by apply cmp_total.
Qed.

Lemma Sorted_js_sort l : Sorted (precedes cmp) (js_sort cmp l).
Proof using cmp_total.
  induction l as [|x l IH]; [constructor|].
  by apply Sorted_sort_insert.
Qed.
End sort_facts.

(** ** Loops whose body may throw *)

Lemma for_of_app {A S} (xs ys : list A) (body : S → A → Res S) acc :
  for_of (xs ++ ys) body acc = (acc' ← for_of xs body acc; for_of ys body acc').
Proof.
  revert acc. induction xs as [|x xs IH]; intros acc; simpl; [done|].
  destruct (body acc x); simpl; [apply IH|done].
Qed.

(** An invariant of the loop holds of its result. *)
Lemma for_of_invariant {A S} (I : S → Prop) (xs : list A) (body : S → A → Res S) acc r :
  (∀ s x s', x ∈ xs → I s → body s x = Ret s' → I s') →
  I acc → for_of xs body acc = Ret r → I r.
Proof.
  revert acc. induction xs as [|x xs IH]; intros acc Hbody Hacc; simpl.
  - by intros [= <-].
  - destruct (body acc x) as [s'|e] eqn:Hx; simpl; [|done].
    apply IH.
    + intros s y s'' Hy. apply Hbody. by right.
    + eapply Hbody; [left|done..].
Qed.

(** The loop returns when every turn does. *)
Lemma for_of_returns {A S} (xs : list A) (body : S → A → Res S) acc :
  (∀ s x, x ∈ xs → ∃ s', body s x = Ret s') → ∃ r, for_of xs body acc = Ret r.
Proof.
  revert acc. induction xs as [|x xs IH]; intros acc Hbody; simpl; [by eexists|].
  destruct (Hbody acc x) as [s' ->]; [left|]. simpl.
  apply IH. intros s y Hy. apply Hbody. by right.
Qed.

(** Every turn of a loop that returned has returned. *)
Lemma for_of_turns {A S} (xs : list A) (body : S → A → Res S) acc r :
  for_of xs body acc = Ret r → Forall (λ x, ∃ s s', body s x = Ret s') xs.
Proof.
  revert acc. induction xs as [|x xs IH]; intros acc; simpl; [by constructor|].
  destruct (body acc x) as [acc'|] eqn:Hx; simpl; [|done].
  intros Hloop. constructor; [eauto|]. by eapply IH.
Qed.

(** ** [expandWithSynonyms] *)

Section expand_facts.
Variable table : list (string * list string).

Lemma elem_of_expand_by_value x word expanded :
  x ∈ expand_by_value table word expanded ↔
  x ∈ expanded ∨
  ∃ key synonyms, (key, synonyms) ∈ table ∧ word ∈ synonyms ∧ (x = key ∨ x ∈ synonyms).
Proof.
  unfold expand_by_value. revert expanded.
  induction table as [|[k syns] t IH]; intros expanded; simpl.
  - split; [auto|]. intros [?|(?&?&[]%elem_of_nil&_)]; done.
  - rewrite IH. clear IH. case_bool_decide as Hw.
    + rewrite elem_of_set_add_all, elem_of_set_add. split.
      * intros [[?|[->|?]]|(k'&s'&?&?&?)]; eauto 8 using list_elem_of_here.
        right. exists k', s'. split; [by right|done].
      * intros [?|(k'&s'&[[= -> ->]|?]%elem_of_cons&?&[->|?])]; eauto 10.
    + split.
      * intros [?|(k'&s'&?&?&?)]; [by left|].
        right. exists k', s'. split; [by right|done].
      * intros [?|(k'&s'&[[= -> ->]|?]%elem_of_cons&?&?)]; [by left|done|eauto 10].
Qed.

Lemma expand_word_Ret expanded word expanded' :
  expand_word table expanded word = Ret expanded' →
  ∀ x, x ∈ expanded' ↔ x ∈ expanded ∨ brought_in table word x.
Proof.
  unfold expand_word, concept_lookup, brought_in.
  destruct (assoc word table) as [syns|] eqn:Hassoc; simpl.
  - intros [= <-] x. rewrite elem_of_expand_by_value, elem_of_set_add_all.
    split; [intros [[?|?]|?]|intros [?|[(s&[= <-]&?)|?]]]; eauto 8.
  - destruct (is_inherited word); simpl; [done|].
    intros [= <-] x. rewrite elem_of_expand_by_value.
    split; [intros [?|?]|intros [?|[(s&?&?)|?]]]; eauto; done.
Qed.

Lemma expand_word_returns expanded word :
  concept_lookup table word ≠ Inherited → ∃ expanded', expand_word table expanded word = Ret expanded'.
Proof.
  unfold expand_word. destruct (concept_lookup table word); simpl; eauto. done.
Qed.

Lemma expand_word_Throw expanded word e :
  expand_word table expanded word = Throw e → e = TypeError ∧ concept_lookup table word = Inherited.
Proof.
  unfold expand_word. destruct (concept_lookup table word); simpl; try done.
  by intros [= <-].
Qed.

Lemma elem_of_expand_with words expanded :
  expand_with table words = Ret expanded →
  ∀ x, x ∈ expanded ↔ x ∈ words ∨ ∃ word, word ∈ words ∧ brought_in table word x.
Proof.
  unfold expand_with. intros Hloop.
  assert (∀ ws acc r, for_of ws (expand_word table) acc = Ret r →
            ∀ x, x ∈ r ↔ x ∈ acc ∨ ∃ word, word ∈ ws ∧ brought_in table word x) as Hgen.
  { clear. induction ws as [|w ws IH]; intros acc r; simpl.
    - intros [= <-] x. split; [auto|]. intros [?|(?&[]%elem_of_nil&_)]; done.
    - destruct (expand_word table acc w) as [acc'|] eqn:Hw; simpl; [|done].
      intros Hr x. rewrite (IH _ _ Hr), (expand_word_Ret _ _ _ Hw).
      split.
      + intros [[?|?]|(w'&?&?)]; eauto using list_elem_of_here.
        right. exists w'. split; [by right|done].
      + intros [?|(w'&[->|?]%elem_of_cons&?)]; eauto 8. }
  intros x. rewrite (Hgen _ _ _ Hloop), elem_of_set_add_all, elem_of_nil. tauto.
Qed.

Lemma expand_with_returns words :
  Forall (λ word, concept_lookup table word ≠ Inherited) words →
  ∃ expanded, expand_with table words = Ret expanded.
Proof.
  intros Hwords. apply for_of_returns.
  intros s x Hx. apply expand_word_returns.
  by eapply Forall_forall in Hwords.
Qed.

Lemma expand_with_Ret words expanded :
  expand_with table words = Ret expanded →
  Forall (λ word, concept_lookup table word ≠ Inherited) words.
Proof.
  intros Hloop%for_of_turns. eapply Forall_impl; [done|]. simpl.
  intros word (s & s' & Hturn) Hlookup. unfold expand_word in Hturn.
  by rewrite Hlookup in Hturn.
Qed.

Lemma expand_with_Throw words e :
  expand_with table words = Throw e →
  e = TypeError ∧ ∃ word, word ∈ words ∧ concept_lookup table word = Inherited.
Proof.
  unfold expand_with. generalize (set_add_all words []).
  induction words as [|w ws IH]; intros acc; simpl; [done|].
  destruct (expand_word table acc w) as [acc'|e'] eqn:Hw; simpl.
  - intros (-> & w' & ? & ?)%IH. split; [done|]. exists w'. split; [by right|done].
  - intros [= ->]. apply expand_word_Throw in Hw as [-> ?].
    split; [done|]. exists w. split; [left|done].
Qed.
End expand_facts.

(** ** Scores *)

Local Open Scope Qc_scope.

Lemma Qc_of_nat_nonneg n : 0 ≤ Qc_of_nat n.
Proof. unfold Qc_of_nat. rewrite <-Z2Qc_inj_0, <-Z2Qc_inj_le. lia. Qed.

Lemma Qc_of_nat_pos n : (0 < n)%nat → 0 < Qc_of_nat n.
Proof. intros. unfold Qc_of_nat. rewrite <-Z2Qc_inj_0, <-Z2Qc_inj_lt. lia. Qed.

Lemma half_nonneg : 0 ≤ half.
Proof. done. Qed.

Lemma three_tenths_nonneg : 0 ≤ three_tenths.
Proof. done. Qed.

Lemma Qcplus_nonneg_r (x y : Qc) : 0 ≤ y → x ≤ x + y.
Proof.
  intros. rewrite <-(Qcplus_0_r x) at 1. by apply Qcplus_le_mono_l.
Qed.

Lemma precedes_by_score a b : precedes by_score a b ↔ ranked_before a b.
Proof.
  unfold precedes, by_score, ranked_before.
  rewrite (Qcplus_le_mono_r _ _ (score a)).
  unfold Qcminus. by rewrite <-Qcplus_assoc, (Qcplus_comm (- _)), Qcplus_opp_r,
    Qcplus_0_r, Qcplus_0_l.
Qed.

Lemma ranked_before_trans : Transitive ranked_before.
Proof. intros a b c ??. unfold ranked_before in *. by trans (score b). Qed.

Lemma by_score_total a b : ¬ precedes by_score a b → precedes by_score b a.
Proof.
  rewrite !precedes_by_score. unfold ranked_before.
  intros ?%Qcnot_le_lt. by apply Qclt_le_weak.
Qed.

Lemma Sorted_weaken {A} (R R' : relation A) l :
  (∀ x y, R x y → R' x y) → Sorted R l → Sorted R' l.
Proof.
  intros HR. induction 1 as [|x l Hl IH Hx]; constructor; [done|].
  destruct Hx; constructor; auto.
Qed.

Lemma StronglySorted_js_sort_by_score results :
  StronglySorted ranked_before (js_sort by_score results).
Proof.
  apply Sorted_StronglySorted; [apply ranked_before_trans|].
  eapply Sorted_weaken; [|apply Sorted_js_sort, by_score_total].
  intros a b. by rewrite precedes_by_score.
Qed.

Lemma StronglySorted_take {A} (R : relation A) n l :
  StronglySorted R l → StronglySorted R (take n l).
Proof.
  intros Hl. rewrite <-(take_drop n l) in Hl. by apply StronglySorted_app_1_l in Hl.
Qed.

Lemma score_tags_ge expandedIntent tags s : s ≤ score_tags expandedIntent tags s.
Proof.
  unfold score_tags. revert s. induction tags as [|t ts IH]; intros s; simpl; [done|].
  etrans; [|apply IH]. case_bool_decide; [|done]. by apply Qcplus_nonneg_r.
Qed.

(** ** The scoring loops of [query] *)

Lemma score_hint_Ret expandedIntent acc hint acc' :
  score_hint expandedIntent acc hint = Ret acc' →
  ∃ expandedHint,
    expandWithSynonyms (tokenize hint) = Ret expandedHint ∧
    acc' = if bool_decide (0 < wordOverlap expandedIntent expandedHint)%nat
           then (acc.1 ++ [hint], acc.2 + Qc_of_nat (wordOverlap expandedIntent expandedHint))
           else acc.
Proof.
  unfold score_hint.
  destruct (expandWithSynonyms (tokenize hint)) as [eh|] eqn:Heh; simpl; [|done].
  intros Hacc. exists eh. split; [done|].
  case_bool_decide; by injection Hacc.
Qed.

(** The loop over the entry hints only adds to the matched hints and to the
    score; every hint has been expanded, and a hint that overlaps the intent
    is matched and counted. *)
Lemma score_hints_spec expandedIntent hints matched0 score0 matched score1 :
  for_of hints (score_hint expandedIntent) (matched0, score0) = Ret (matched, score1) →
  score0 ≤ score1 ∧
  (∀ x, x ∈ matched0 → x ∈ matched) ∧
  (∀ hint, hint ∈ hints →
     ∃ expandedHint,
       expandWithSynonyms (tokenize hint) = Ret expandedHint ∧
       ((0 < wordOverlap expandedIntent expandedHint)%nat →
        hint ∈ matched ∧ score0 < score1)).
Proof.
  revert matched0 score0.
  induction hints as [|hint hints IH]; intros matched0 score0; simpl.
  - intros [= <- <-]. split_and!; [done..|]. by intros ? []%elem_of_nil.
  - destruct (score_hint _ _ hint) as [[m s]|] eqn:Hhint; simpl; [|done].
    intros (Hs & Hm & Hrest)%IH.
    apply score_hint_Ret in Hhint as (eh & Heh & Hacc). simpl in Hacc.
    assert (score0 ≤ s ∧ (∀ x, x ∈ matched0 → x ∈ m)) as [Hs0 Hm0].
    { case_bool_decide; injection Hacc as -> ->; [|done].
      split; [apply Qcplus_nonneg_r, Qc_of_nat_nonneg|].
      intros x ?. apply elem_of_app. by left. }
    split_and!; [by trans s|by auto|].
    intros hint' [->|Hin]%elem_of_cons.
    + exists eh. split; [done|]. intros Hpos.
      rewrite bool_decide_eq_true_2 in Hacc by done. injection Hacc as -> ->.
      split.
      * apply Hm, elem_of_app. right. by left.
      * eapply Qclt_le_trans; [|done].
        rewrite <-(Qcplus_0_r score0) at 1.
        by apply Qcplus_lt_mono_l, Qc_of_nat_pos.
    + destruct (Hrest _ Hin) as (eh' & Heh' & Hpos).
      exists eh'. split; [done|]. intros [? ?]%Hpos.
      split; [done|]. by eapply Qcle_lt_trans.
Qed.

(** What one turn of the loop over the hexes does to [results]. *)
Lemma score_hex_Ret expandedIntent results h results' :
  score_hex expandedIntent results h = Ret results' →
  ∃ matched hint_score total,
    for_of (entryHints h) (score_hint expandedIntent) ([], 0) = Ret (matched, hint_score) ∧
    hint_score ≤ total ∧
    results' = if decide (0 < total)
               then results ++ [{| hex := h; score := total; matchedHints := matched |}]
               else results.
Proof.
  unfold score_hex.
  destruct (for_of _ _ _) as [[matched s]|] eqn:Hhints; simpl; [|done].
  destruct (expandWithSynonyms (tokenize (name h))) as [en|]; simpl; [|done].
  set (s1 := s + Qc_of_nat (wordOverlap expandedIntent en) * half).
  assert (s ≤ s1) as Hs1.
  { apply Qcplus_nonneg_r, Qcmult_nonneg_nonneg; [apply Qc_of_nat_nonneg|done]. }
  destruct (truthy_string (description h)) as [d|]; simpl.
  - destruct (expandWithSynonyms (tokenize d)) as [ed|]; simpl; [|done].
    set (s2 := s1 + _).
    assert (s1 ≤ s2) as Hs2.
    { apply Qcplus_nonneg_r, Qcmult_nonneg_nonneg; [apply Qc_of_nat_nonneg|done]. }
    intros Hres. exists matched, s, (score_tags expandedIntent (tags h) s2).
    split_and!; [done| |].
    + etrans; [|apply score_tags_ge]. by trans s1.
    + case_decide; by injection Hres.
  - intros Hres. exists matched, s, (score_tags expandedIntent (tags h) s1).
    split_and!; [done| |].
    + etrans; [|apply score_tags_ge]. done.
    + case_decide; by injection Hres.
Qed.

(** ** When the expansions return *)

Lemma CONCEPT_MAP_keys_plain :
  Forall (λ word, assoc word CONCEPT_MAP = None) object_prototype_members.
Proof. by repeat constructor. Qed.

Lemma plain_word_lookup word :
  is_inherited word = false ↔ concept_lookup CONCEPT_MAP word ≠ Inherited.
Proof.
  unfold concept_lookup. split.
  - intros Hword. destruct (assoc word CONCEPT_MAP); [done|]. by rewrite Hword.
  - intros Hlookup. destruct (is_inherited word) eqn:Hword; [|done].
    destruct Hlookup.
    assert (assoc word CONCEPT_MAP = None) as ->; [|done].
    apply bool_decide_eq_true in Hword.
    by apply (proj1 (Forall_forall _ _) CONCEPT_MAP_keys_plain).
Qed.

Lemma expandWithSynonyms_returns words :
  (∃ expanded, expandWithSynonyms words = Ret expanded) ↔ plain_words words.
Proof.
  unfold plain_words. split.
  - intros [expanded Hexp%expand_with_Ret].
    eapply Forall_impl; [done|]. intros word. apply plain_word_lookup.
  - intros Hwords. apply expand_with_returns.
    eapply Forall_impl; [done|]. intros word. apply plain_word_lookup.
Qed.

Lemma score_hint_returns expandedIntent acc hint :
  (∃ acc', score_hint expandedIntent acc hint = Ret acc') ↔ plain_text hint.
Proof.
  unfold plain_text. rewrite <-expandWithSynonyms_returns. unfold score_hint.
  destruct (expandWithSynonyms (tokenize hint)) as [eh|]; simpl.
  - split; [eauto|]. intros _. case_bool_decide; eauto.
  - split; by intros [? ?].
Qed.

Lemma score_hex_returns expandedIntent results h :
  (∃ results', score_hex expandedIntent results h = Ret results') ↔
  Forall plain_text (hex_texts h).
Proof.
  unfold hex_texts. simpl. rewrite Forall_app, Forall_cons. split.
  - intros [results' Hturn]. unfold score_hex in Hturn.
    destruct (for_of _ _ _) as [[m s]|] eqn:Hhints; simpl in Hturn; [|done].
    destruct (expandWithSynonyms (tokenize (name h))) as [en|] eqn:Hname;
      simpl in Hturn; [|done].
    split_and!.
    + apply for_of_turns in Hhints. eapply Forall_impl; [done|]. simpl.
      intros hint (acc & acc' & Hhint). apply (score_hint_returns expandedIntent acc). eauto.
    + apply expandWithSynonyms_returns. eauto.
    + destruct (truthy_string (description h)) as [d|]; simpl; [|constructor].
      apply Forall_singleton.
      destruct (expandWithSynonyms (tokenize d)) as [ed|] eqn:Hdesc;
        simpl in Hturn; [|done].
      apply expandWithSynonyms_returns. eauto.
  - intros (Hhints & Hname & Hdesc). unfold score_hex.
    destruct (for_of_returns (entryHints h) (score_hint expandedIntent) ([], 0))
      as [[m s] ->].
    { intros acc hint Hin. apply score_hint_returns. by eapply Forall_forall in Hhints. }
    simpl. apply expandWithSynonyms_returns in Hname as [en ->]. simpl.
    destruct (truthy_string (description h)) as [d|]; simpl.
    + simpl in Hdesc. apply Forall_inv in Hdesc.
      apply expandWithSynonyms_returns in Hdesc as [ed ->]. simpl.
      case_decide; eauto.
    + case_decide; eauto.
Qed.

(** ** [query] *)

Lemma query_unfold intentText limit w :
  query intentText limit w =
  (expandedIntent ← expandWithSynonyms (tokenize intentText);
   results ← for_of (map_to_list (hexDir w)).*2 (score_hex expandedIntent) [];
   Ret (slice (js_sort by_score results) 0 (Some (default default_query_limit limit))),
   w).
Proof.
  unfold query, mbind, m_bind, getAllHexes, lift, res_bind. simpl.
  destruct (expandWithSynonyms _); simpl; [|done].
  by destruct (for_of _ _ _).
Qed.

(** [query] returns exactly when no word it expands reaches
    [Object.prototype]. *)
Lemma query_returns intentText limit w :
  (∃ rs, query intentText limit w = (Ret rs, w)) ↔
  Forall plain_text (query_texts intentText w).
Proof.
  unfold query_texts. rewrite Forall_cons, Forall_bind, query_unfold. split.
  - intros [rs Hrun].
    destruct (expandWithSynonyms (tokenize intentText)) as [ei|] eqn:Hintent;
      simpl in Hrun; [|done].
    destruct (for_of _ _ _) as [results|] eqn:Hloop; simpl in Hrun; [|done].
    split; [apply expandWithSynonyms_returns; eauto|].
    apply for_of_turns in Hloop. eapply Forall_impl; [done|]. simpl.
    intros h (results0 & results1 & Hturn).
    apply (score_hex_returns ei results0). eauto.
  - intros [Hintent Hhexes].
    apply expandWithSynonyms_returns in Hintent as [ei ->]. simpl.
    destruct (for_of_returns (map_to_list (hexDir w)).*2 (score_hex ei) []) as [rs ->].
    { intros results h Hin. apply score_hex_returns. by eapply Forall_forall in Hhexes. }
    simpl. eauto.
Qed.

Lemma query_results_positive expandedIntent hexes results :
  for_of hexes (score_hex expandedIntent) [] = Ret results →
  Forall (λ r, 0 < score r) results.
Proof.
  apply (for_of_invariant (Forall (λ r, 0 < score r))); [|done].
  intros rs h rs' _ Hrs (m & s & total & _ & _ & ->)%score_hex_Ret.
  case_decide; [|done]. apply Forall_app. split; [done|]. by apply Forall_singleton.
Qed.

(** C1 (as amended): on every intent, limit and store on which [query]
    returns a list — it does whenever no word of the intent or of a hex's
    hints, name or description names a member of [Object.prototype] — every
    returned element has a score strictly greater than 0, the list is
    sorted in non-increasing order of score, and its length is at most the
    limit when the limit is not negative (the limit defaults to 5). *)
Theorem query_ranked intentText limit w :
  ((∃ rs, query intentText limit w = (Ret rs, w)) ↔
   Forall plain_text (query_texts intentText w)) ∧
  (∀ rs w', query intentText limit w = (Ret rs, w') →
     w' = w ∧
     Forall (λ r, 0 < score r) rs ∧
     StronglySorted ranked_before rs ∧
     ((0 ≤ default 5 limit)%Z → (Z.of_nat (length rs) ≤ default 5 limit)%Z)).
Proof.
  split; [apply query_returns|].
  intros rs w'. rewrite query_unfold.
  destruct (expandWithSynonyms _) as [ei|]; simpl; [|done].
  destruct (for_of _ _ _) as [results|] eqn:Hresults; simpl; [|done].
  intros [= <- <-]. split_and!; [done|..].
  - rewrite slice_from_start. apply Forall_take.
    rewrite js_sort_Permutation. by eapply query_results_positive.
  - rewrite slice_from_start. apply StronglySorted_take, StronglySorted_js_sort_by_score.
  - apply slice_length_le.
Qed.

Lemma query_ranked_witness :
  ∃ rs, query "button styling" (Some 1%Z) ranking_world = (Ret rs, ranking_world) ∧
        Forall (λ r, 0 < score r) rs ∧ (Z.of_nat (length rs) ≤ 1)%Z.
Proof.
  destruct (query_ranked "button styling" (Some 1%Z) ranking_world) as [Hret Hprops].
  assert (Forall plain_text (query_texts "button styling" ranking_world)) as Hplain.
  { apply (bool_decide_unpack _). by vm_compute. }
  destruct (proj2 Hret Hplain) as [rs Hrs].
  exists rs. split; [done|].
  destruct (Hprops rs ranking_world Hrs) as (_ & Hpos & _ & Hlen).
  split; [done|]. apply Hlen. simpl. lia.
Defined.

(** C1 (as stated) fails for a negative limit: [slice(0, -1)] drops the
    last ranked result only, so two matching hexes leave a list of length 1,
    which is not at most -1. *)
Lemma query_negative_limit_counterexample :
  ∃ rs, query "button styling" (Some (-1)%Z) ranking_world = (Ret rs, ranking_world) ∧
        length rs = 1%nat ∧ ¬ (Z.of_nat (length rs) ≤ -1)%Z.
Proof.
  eexists. split; [vm_compute; reflexivity|]. split; [done|]. simpl. lia.
Qed.

(** ** Symmetry of synonym expansion *)

Lemma assoc_Some_elem_of {V} key (entries : list (string * V)) v :
  assoc key entries = Some v → (key, v) ∈ entries.
Proof.
  induction entries as [|[k v'] t IH]; simpl; [done|].
  destruct (String.eqb_spec k key) as [->|].
  - intros [= ->]. left.
  - intros ?. right. auto.
Qed.

Lemma assoc_NoDup {V} key (entries : list (string * V)) v :
  NoDup entries.*1 → (key, v) ∈ entries → assoc key entries = Some v.
Proof.
  induction entries as [|[k v'] t IH]; simpl; [by intros _ []%elem_of_nil|].
  intros [Hk Ht]%NoDup_cons [[= -> ->]|Hin]%elem_of_cons.
  - by rewrite String.eqb_refl.
  - destruct (String.eqb_spec k key) as [->|]; [|by apply IH].
    destruct Hk. apply list_elem_of_fmap. by exists (key, v).
Qed.

Section symmetry.
Variable table : list (string * list string).
Hypothesis keys_distinct : NoDup table.*1.
Hypothesis synonyms_plain :
  Forall (λ entry, Forall (λ s, is_inherited s = false) entry.2) table.

Lemma brought_in_sym a b : brought_in table a b → brought_in table b a.
Proof using keys_distinct.
  intros [(syns & Ha & Hb)|(key & syns & Hentry & Ha & [->|Hb])].
  - right. exists a, syns. split_and!; [by apply assoc_Some_elem_of|done|by left].
  - left. exists syns. split; [by apply assoc_NoDup|done].
  - right. exists key, syns. split_and!; [done..|by right].
Qed.

Lemma brought_in_lookup a b :
  brought_in table a b → concept_lookup table b ≠ Inherited.
Proof using keys_distinct synonyms_plain.
  assert (∀ key syns s, (key, syns) ∈ table → s ∈ syns → concept_lookup table s ≠ Inherited)
    as Hsyn.
  { intros key syns s Hentry Hs. unfold concept_lookup.
    destruct (assoc s table); [done|].
    eapply Forall_forall in synonyms_plain; [|done].
    eapply Forall_forall in synonyms_plain; [|done].
    simpl in synonyms_plain. by rewrite synonyms_plain. }
  intros [(syns & Ha & Hb)|(key & syns & Hentry & Ha & [->|Hb])].
  - apply assoc_Some_elem_of in Ha. eauto.
  - unfold concept_lookup. by rewrite (assoc_NoDup _ _ _ keys_distinct Hentry).
  - eauto.
Qed.

Lemma expand_with_sym a b expanded_a :
  expand_with table [a] = Ret expanded_a → b ∈ expanded_a →
  ∃ expanded_b, expand_with table [b] = Ret expanded_b ∧ a ∈ expanded_b.
Proof using keys_distinct synonyms_plain.
  intros Ha Hb.
  apply (elem_of_expand_with _ _ _ Ha) in Hb
    as [->%list_elem_of_singleton|(? & ->%list_elem_of_singleton & Hab)].
  - exists expanded_a. split; [done|].
    apply (elem_of_expand_with _ _ _ Ha). left. by left.
  - destruct (expand_with_returns table [b]) as [expanded_b Hexp].
    { apply Forall_singleton. by eapply brought_in_lookup. }
    exists expanded_b. split; [done|].
    apply (elem_of_expand_with _ _ _ Hexp). right.
    exists b. split; [by left|]. by apply brought_in_sym.
Qed.
End symmetry.

Lemma CONCEPT_MAP_keys_distinct : NoDup CONCEPT_MAP.*1.
Proof. apply (bool_decide_unpack _). by vm_compute. Qed.

Lemma CONCEPT_MAP_synonyms_plain :
  Forall (λ entry, Forall (λ s, is_inherited s = false) entry.2) CONCEPT_MAP.
Proof. apply (bool_decide_unpack _). by vm_compute. Qed.

Lemma expandWithSynonyms_words words expanded word :
  expandWithSynonyms words = Ret expanded → word ∈ words → word ∈ expanded.
Proof. intros Hexp ?. apply (elem_of_expand_with _ _ _ Hexp). by left. Qed.

Lemma wordOverlap_pos a b word : word ∈ a → word ∈ b → (0 < wordOverlap a b)%nat.
Proof.
  intros Ha Hb. unfold wordOverlap.
  assert (word ∈ filter (λ w, w ∈ b) a) as Hin by (by apply list_elem_of_filter).
  destruct (filter _ a); [by apply elem_of_nil in Hin|simpl; lia].
Qed.

(** ** A hint that shares a word with the expanded intent is reported *)

Lemma query_results_contain expandedIntent hexes results0 results h hint word :
  for_of hexes (score_hex expandedIntent) results0 = Ret results →
  h ∈ hexes → hint ∈ entryHints h →
  word ∈ expandedIntent → word ∈ tokenize hint →
  ∃ r, r ∈ results ∧ hex r = h ∧ hint ∈ matchedHints r ∧ (0 < score r)%Qc.
Proof.
  intros Hloop Hh Hhint Hword Htoken. revert results0 Hloop.
  induction hexes as [|h' hexes IH]; intros results0; simpl;
    [by apply elem_of_nil in Hh|].
  destruct (score_hex expandedIntent results0 h') as [results1|] eqn:Hturn; simpl; [|done].
  intros Hloop. apply elem_of_cons in Hh as [<-|Hh]; [|by eapply IH].
  apply score_hex_Ret in Hturn as (m & s & total & Hhints & Htotal & ->).
  apply score_hints_spec in Hhints as (_ & _ & Hmatched).
  destruct (Hmatched hint Hhint) as (eh & Heh & Hpos).
  destruct Hpos as [Hin Hs].
  { eapply wordOverlap_pos; [done|]. by eapply expandWithSynonyms_words. }
  rewrite decide_True in Hloop by (by eapply Qclt_le_trans).
  exists {| hex := h; score := total; matchedHints := m |}.
  split_and!; [|done..|by eapply Qclt_le_trans].
  revert Hloop. apply (for_of_invariant (λ rs, _ ∈ rs)).
  - intros rs x rs' _ Hrs (? & ? & ? & _ & _ & ->)%score_hex_Ret.
    case_decide; [|done]. apply elem_of_app. by left.
  - apply elem_of_app. right. by left.
Qed.

Lemma query_results_length expandedIntent hexes results0 results :
  for_of hexes (score_hex expandedIntent) results0 = Ret results →
  (length results ≤ length results0 + length hexes)%nat.
Proof.
  revert results0. induction hexes as [|h hexes IH]; intros results0; simpl.
  - intros [= <-]. lia.
  - destruct (score_hex expandedIntent results0 h) as [results1|] eqn:Hturn; simpl; [|done].
    intros ?%IH. apply score_hex_Ret in Hturn as (? & ? & ? & _ & _ & ->).
    case_decide; [rewrite length_app in *; simpl in *|]; lia.
Qed.

(** C7: synonym expansion is symmetric — if the expansion of the token set
    [{a}] contains [b], the expansion of [{b}] contains [a]; the expansion
    of "button" contains "interactive"; an entry hint containing the word
    "interactive" has a nonzero overlap with the intent "button"; and
    [query "button"] reports that hint in the [matchedHints] of the hex,
    with a positive score, when the limit does not truncate the list. *)
Theorem synonym_expansion_symmetric :
  (∀ a b expanded_a,
     expandWithSynonyms [a] = Ret expanded_a → b ∈ expanded_a →
     ∃ expanded_b, expandWithSynonyms [b] = Ret expanded_b ∧ a ∈ expanded_b) ∧
  (∃ expanded,
     expandWithSynonyms (tokenize "button") = Ret expanded ∧ "interactive" ∈ expanded ∧
     ∀ hint expandedHint,
       "interactive" ∈ tokenize hint →
       expandWithSynonyms (tokenize hint) = Ret expandedHint →
       (0 < wordOverlap expanded expandedHint)%nat) ∧
  (∀ limit w key h hint rs w',
     hexDir w !! key = Some h → hint ∈ entryHints h → "interactive" ∈ tokenize hint →
     query "button" limit w = (Ret rs, w') →
     (Z.of_nat (size (hexDir w)) ≤ default 5 limit)%Z →
     ∃ r, r ∈ rs ∧ hex r = h ∧ hint ∈ matchedHints r ∧ (0 < score r)%Qc).
Proof.
  assert (expandWithSynonyms (tokenize "button") =
          Ret ["button"; "interactive"; "form"; "click"; "input"; "ui"; "element"])
    as Hbutton by reflexivity.
  assert ("interactive" ∈ ["button"; "interactive"; "form"; "click"; "input"; "ui"; "element"])
    as Hinteractive by (right; left).
  split_and!.
  - apply expand_with_sym;
      [apply CONCEPT_MAP_keys_distinct|apply CONCEPT_MAP_synonyms_plain].
  - eexists. split_and!; [done..|].
    intros hint eh Htoken Heh.
    eapply wordOverlap_pos; [done|]. by eapply expandWithSynonyms_words.
  - intros limit w key h hint rs w' Hh Hhint Htoken. rewrite query_unfold, Hbutton. simpl.
    destruct (for_of _ _ _) as [results|] eqn:Hloop; simpl; [|done].
    intros [= <- <-] Hlimit.
    assert (h ∈ (map_to_list (hexDir w)).*2) as Hin.
    { apply list_elem_of_fmap. exists (key, h). split; [done|]. by apply elem_of_map_to_list. }
    destruct (query_results_contain _ _ _ _ _ _ _ Hloop Hin Hhint Hinteractive Htoken)
      as (r & Hr & ?).
    exists r. split; [|done].
    rewrite slice_all, js_sort_Permutation; [done|].
    rewrite js_sort_Permutation.
    apply query_results_length in Hloop.
    rewrite length_fmap, length_map_to_list in Hloop. simpl in Hloop.
    unfold default_query_limit. lia.
Qed.

Lemma synonym_expansion_symmetric_witness :
  (∃ expanded, expandWithSynonyms ["interactive"] = Ret expanded ∧ "button" ∈ expanded) ∧
  (∃ rs, query "button" None ranking_world = (Ret rs, ranking_world) ∧
         ∃ r, r ∈ rs ∧ hex_id (hex r) = "interactive-elements" ∧
              "interactive widgets" ∈ matchedHints r).
Proof.
  destruct synonym_expansion_symmetric as (Hsym & _ & Hquery).
  split.
  - apply (Hsym "button" "interactive"
             ["button"; "interactive"; "form"; "click"; "input"; "ui"; "element"]).
    + reflexivity.
    + right. left.
  - assert (Forall plain_text (query_texts "button" ranking_world)) as Hplain.
    { apply (bool_decide_unpack _). by vm_compute. }
    destruct (proj2 (query_returns "button" None ranking_world) Hplain) as [rs Hrs].
    exists rs. split; [done|].
    destruct (Hquery None ranking_world "interactive-elements"
                (sample_hex "interactive-elements" "Interactive Elements"
                   ["interactive widgets"; "click targets"] ["ui"] [] VNull)
                "interactive widgets" rs ranking_world) as (r & Hr & Hhex & Hhint & _).
    + reflexivity.
    + left.
    + vm_compute. left.
    + exact Hrs.
    + vm_compute. discriminate.
    + exists r. split; [exact Hr|]. split; [rewrite Hhex; reflexivity|exact Hhint].
Defined.

Local Close Scope Qc_scope.

(** ** [evaluateCondition] *)

Lemma truthy_string_None s : s = None ∨ s = Some EmptyString → truthy_string s = None.
Proof. by intros [->| ->]. Qed.

(** C2: [evaluateCondition] checks only the present clauses whose input is
    present.  When the context intent is absent or empty, the intent clause
    is skipped: the condition evaluates as it does without that clause.
    When the context payload is absent, the [hasData], [lacks] and [match]
    clauses are vacuously satisfied: the condition evaluates as it does
    without them, so a condition made of [hasData] and [lacks] passes. *)
Theorem evaluate_skips_absent_inputs condition context :
  (intent context = None ∨ intent context = Some EmptyString →
   evaluateCondition condition context = evaluateCondition (without_intent condition) context) ∧
  (payload context = VUndefined →
   evaluateCondition condition context =
   evaluateCondition (without_payload_clauses condition) context) ∧
  (payload context = VUndefined → cond_intent condition = None →
   evaluateCondition condition context = Ret true).
Proof.
  unfold evaluateCondition. split_and!.
  - intros ->%truthy_string_None. simpl.
    by destruct (truthy_string (cond_intent condition)).
  - intros ->. simpl. by destruct (hasData condition), (lacks condition), (cond_match condition).
  - intros -> ->. simpl.
    destruct (default false (always condition)); [done|].
    by destruct (hasData condition), (lacks condition), (cond_match condition).
Qed.

Lemma evaluate_skips_absent_inputs_witness :
  evaluateCondition
    {| cond_intent := None; hasData := Some ["report"]; lacks := Some ["report"];
       cond_match := None; always := None |}
    (no_payload_context (Some "revenue context")) = Ret true.
Proof.
  apply evaluate_skips_absent_inputs; reflexivity.
Defined.

(** ** [applyTransform] *)

Lemma apply_pick_lookup keys m k :
  apply_pick keys m !! k = if decide (k ∈ keys) then m !! k else None.
Proof.
  unfold apply_pick.
  assert (∀ picked : gmap string Value,
            foldl (λ picked key, match m !! key with
                                 | Some v => <[key := v]> picked
                                 | None => picked
                                 end) picked keys !! k
            = match (if decide (k ∈ keys) then m !! k else None) with
              | Some v => Some v
              | None => picked !! k
              end) as Hgen.
  { induction keys as [|key keys IH]; intros picked; cbn [foldl].
    - case_decide as Hnil; [by apply elem_of_nil in Hnil|done].
    - rewrite IH. clear IH.
      assert ((match m !! key with
               | Some v => <[key := v]> picked
               | None => picked
               end) !! k
              = if decide (key = k)
                then match m !! k with Some v => Some v | None => picked !! k end
                else picked !! k) as ->.
      { case_decide as Hkey; [subst key|].
        - destruct (m !! k); [apply lookup_insert_eq|done].
        - destruct (m !! key); [by apply lookup_insert_ne|done]. }
      destruct (decide (k ∈ keys)) as [Hin|Hin].
      + destruct (decide (k ∈ key :: keys)) as [_|Hout]; [|by destruct Hout; right].
        destruct (m !! k); [done|]. by case_decide.
      + destruct (decide (key = k)) as [->|Hne].
        * destruct (decide (k ∈ k :: keys)) as [_|Hout]; [done|by destruct Hout; left].
        * destruct (decide (k ∈ key :: keys)) as [[->|?]%elem_of_cons|_]; done. }
  rewrite Hgen, lookup_empty. case_decide; [|done]. by destruct (m !! k).
Qed.


Lemma apply_omit_lookup keys m k :
  apply_omit keys m !! k = if decide (k ∈ keys) then None else m !! k.
Proof.
  unfold apply_omit. revert m.
  induction keys as [|key keys IH]; intros m; cbn [foldl].
  - case_decide as Hnil; [by apply elem_of_nil in Hnil|done].
  - rewrite IH.
    destruct (decide (k ∈ keys)) as [Hin|Hin].
    + destruct (decide (k ∈ key :: keys)) as [_|Hout]; [done|by destruct Hout; right].
    + destruct (decide (key = k)) as [->|Hne].
      * destruct (decide (k ∈ k :: keys)) as [_|Hout]; [|by destruct Hout; left].
        apply lookup_delete_eq.
      * destruct (decide (k ∈ key :: keys)) as [[->|?]%elem_of_cons|_]; [done..|].
        by apply lookup_delete_ne.
Qed.



Lemma apply_inject_spec extra m : apply_inject extra m = spec_inject extra m.
Proof. done. Qed.

Lemma apply_inject_lookup extra m k :
  apply_inject extra m !! k = match extra !! k with Some v => Some v | None => m !! k end.
Proof.
  unfold apply_inject. rewrite lookup_union.
  by destruct (extra !! k), (m !! k).
Qed.



(** ** [logStep] *)

Lemma logStep_unfold env context step w :
  logStep env context step w =
  (Ret (),
   {| hexDir := hexDir w;
      journeys := recorded env context step (journeys w);
      journeyLogFile :=
        appended env {| entry_step := step; journeyId := journey_key context |}
                 (journeyLogFile w) |}).
Proof.
  unfold logStep, mbind, m_bind, update_journeys, try_catch, appendFile, appended,
    recorded, journey_key, mret, m_ret.
  simpl. by destruct (append_ok env).
Qed.

(** ** [enter] *)

Lemma enter_unfold env hexId context w :
  enter env hexId context w =
  match hexDir w !! hexId, context with
  | Some h, Some ctx =>
      (Ret (Some h),
       (logStep env ctx {| hexId := hexId; action := enter_action; timestamp := now env;
                           step_payload := payload ctx; edgeId := None |} w).2)
  | found, _ => (Ret found, w)
  end.
Proof.
  unfold enter, mbind, m_bind, getHex, mret, m_ret. simpl.
  destruct (hexDir w !! hexId) as [h|], context as [ctx|]; try done.
  by rewrite logStep_unfold.
Qed.

(** ** [traverse] *)

Lemma traverse_source_missing env fromHexId edgeId context w :
  hexDir w !! fromHexId = None →
  traverse env fromHexId edgeId context w = (Ret (failure EmptyString "Source hex not found"), w).
Proof.
  intros Hsource. unfold traverse, mbind, m_bind, getHex, mret, m_ret. simpl.
  by rewrite Hsource.
Qed.

Lemma traverse_edge_missing env fromHexId edgeId context w h :
  hexDir w !! fromHexId = Some h →
  List.find (λ e, String.eqb (edge_id e) edgeId) (edges h) = None →
  traverse env fromHexId edgeId context w = (Ret (failure EmptyString "Edge not found"), w).
Proof.
  intros Hsource Hedge. unfold traverse, mbind, m_bind, getHex, mret, m_ret. simpl.
  by rewrite Hsource, Hedge.
Qed.

(** Once the source hex and the edge are found, the guard decides. *)
Lemma traverse_edge_found env fromHexId edgeId context w h edge :
  hexDir w !! fromHexId = Some h →
  List.find (λ e, String.eqb (edge_id e) edgeId) (edges h) = Some edge →
  traverse env fromHexId edgeId context w =
  match evaluateCondition (when edge) context with
  | Throw e => (Throw e, w)
  | Ret false => (Ret (failure (to edge) "Edge condition not met"), w)
  | Ret true =>
      let carried := match transform edge with
                     | Some t => applyTransform (payload context) t
                     | None => payload context
                     end in
      (Ret {| success := true; destination := to edge; result_payload := carried;
              external := Some (String.prefix "external:" (to edge)); error := None |},
       (logStep env context {| hexId := fromHexId; action := exit_action;
                               timestamp := now env; step_payload := carried;
                               edgeId := Some edgeId |} w).2)
  end.
Proof.
  intros Hsource Hedge. unfold traverse, mbind, m_bind, getHex, lift, mret, m_ret. simpl.
  rewrite Hsource, Hedge.
  destruct (evaluateCondition (when edge) context) as [[]|]; simpl; try done.
  by rewrite logStep_unfold.
Qed.

Lemma traverse_guard_unmet env fromHexId edgeId context w h edge :
  hexDir w !! fromHexId = Some h →
  List.find (λ e, String.eqb (edge_id e) edgeId) (edges h) = Some edge →
  evaluateCondition (when edge) context = Ret false →
  traverse env fromHexId edgeId context w =
  (Ret (failure (to edge) "Edge condition not met"), w).
Proof.
  intros Hsource Hedge Hguard.
  by rewrite (traverse_edge_found _ _ _ _ _ _ _ Hsource Hedge), Hguard.
Qed.


(** ** The guard can throw *)

(** When the intent clause is evaluated, a word of either intent that names
    a member of [Object.prototype] makes the guard throw. *)
Lemma evaluateCondition_throws condition context cond_text ctx_text :
  default false (always condition) = false →
  truthy_string (cond_intent condition) = Some cond_text →
  truthy_string (intent context) = Some ctx_text →
  ¬ (plain_text cond_text ∧ plain_text ctx_text) →
  evaluateCondition condition context = Throw TypeError.
Proof.
  intros Halways Hcond Hctx Hplain. unfold evaluateCondition.
  rewrite Halways, Hcond, Hctx. simpl.
  destruct (expandWithSynonyms (tokenize cond_text)) as [ec|e] eqn:Hec; simpl.
  - destruct (expandWithSynonyms (tokenize ctx_text)) as [ex|e] eqn:Hex; simpl.
    + destruct Hplain. split; apply expandWithSynonyms_returns; eauto.
    + by apply expand_with_Throw in Hex as [-> _].
  - by apply expand_with_Throw in Hec as [-> _].
Qed.

(** C5 (code evaluated at the failing input): [traverse] does not always
    return.  The hex "code-standards" carries the edge "to-testing" guarded
    by the intent "testing strategy"; with the context intent "constructor
    injection" the guard is re-evaluated, [expandWithSynonyms] reads
    [CONCEPT_MAP["constructor"]], finds the inherited
    [Object.prototype.constructor] and iterates over it: a [TypeError]
    escapes from [traverse]. *)
Theorem traverse_throws_on_inherited_word env :
  traverse env "code-standards" "to-testing"
    (sample_context (Some "constructor injection") VUndefined) graph_world
  = (Throw TypeError, graph_world).
Proof. reflexivity. Qed.

(** The three failures that C5 lists are returned, not thrown. *)
Lemma traverse_reported_failures env fromHexId edgeId context w :
  (hexDir w !! fromHexId = None →
   traverse env fromHexId edgeId context w = (Ret (failure EmptyString "Source hex not found"), w)) ∧
  (∀ h, hexDir w !! fromHexId = Some h →
        List.find (λ e, String.eqb (edge_id e) edgeId) (edges h) = None →
        traverse env fromHexId edgeId context w = (Ret (failure EmptyString "Edge not found"), w)) ∧
  (∀ h edge, hexDir w !! fromHexId = Some h →
             List.find (λ e, String.eqb (edge_id e) edgeId) (edges h) = Some edge →
             evaluateCondition (when edge) context = Ret false →
             traverse env fromHexId edgeId context w =
             (Ret (failure (to edge) "Edge condition not met"), w)).
Proof.
  split_and!.
  - apply traverse_source_missing.
  - intros h. apply traverse_edge_missing.
  - intros h edge. apply traverse_guard_unmet.
Qed.

(** When [traverse] throws, it is this [TypeError] of the guard. *)
Lemma traverse_Throw env fromHexId edgeId context w e w' :
  traverse env fromHexId edgeId context w = (Throw e, w') →
  e = TypeError ∧ w' = w ∧
  ∃ h edge, hexDir w !! fromHexId = Some h ∧
            List.find (λ e, String.eqb (edge_id e) edgeId) (edges h) = Some edge ∧
            evaluateCondition (when edge) context = Throw TypeError.
Proof.
  destruct (hexDir w !! fromHexId) as [h|] eqn:Hsource;
    [|by rewrite traverse_source_missing].
  destruct (List.find (λ e, String.eqb (edge_id e) edgeId) (edges h)) as [edge|] eqn:Hedge;
    [|by erewrite traverse_edge_missing].
  rewrite (traverse_edge_found _ _ _ _ _ _ _ Hsource Hedge).
  destruct (evaluateCondition (when edge) context) as [[]|e'] eqn:Hguard; simpl; try done.
  intros [= -> <-].
  assert (e = TypeError) as ->; [|by eauto 10].
  unfold evaluateCondition in Hguard.
  destruct (default false (always (when edge))); [done|].
  destruct (truthy_string (cond_intent (when edge))) as [ci|]; simpl in Hguard;
    [destruct (truthy_string (intent context)) as [xi|]; simpl in Hguard|].
  - destruct (expandWithSynonyms (tokenize ci)) as [ec|] eqn:Hec; simpl in Hguard.
    + destruct (expandWithSynonyms (tokenize xi)) as [ex|] eqn:Hex; simpl in Hguard.
      * by repeat case_match.
      * injection Hguard as <-. by apply expand_with_Throw in Hex as [-> _].
    + injection Hguard as <-. by apply expand_with_Throw in Hec as [-> _].
  - by repeat case_match.
  - by repeat case_match.
Qed.



(** ** [deposit] *)

Lemma deposit_unfold env hexId incoming context w :
  deposit env hexId incoming context w =
  match hexDir w !! hexId with
  | None => (Ret false, w)
  | Some h =>
      if write_ok env then
        let saved := {| hexDir := <[hex_id h := with_data env h
                                                 (merge_data (data (contents h)) incoming)]>
                                    (hexDir w);
                        journeys := journeys w;
                        journeyLogFile := journeyLogFile w |} in
        match context with
        | Some ctx =>
            (Ret true,
             (logStep env ctx {| hexId := hexId; action := deposit_action;
                                 timestamp := now env; step_payload := incoming;
                                 edgeId := None |} saved).2)
        | None => (Ret true, saved)
        end
      else (Throw IOError, w)
  end.
Proof.
  unfold deposit, mbind, m_bind, getHex, saveHex, mret, m_ret. simpl.
  destruct (hexDir w !! hexId) as [h|]; [|done].
  destruct (write_ok env); [|done].
  destruct context as [ctx|]; [|done].
  by rewrite logStep_unfold.
Qed.

(** ** Failures of the journey log *)

Lemma logStep_agree env context step w :
  agree (logStep (with_append false env) context step w)
        (logStep (with_append true env) context step w).
Proof. by rewrite !logStep_unfold. Qed.

(** C8: a failing append to the journey log is caught in [logStep], which
    always returns; and [enter], [traverse] and [deposit] give the caller
    the same outcome — the same value, or the same exception of another
    origin — and leave the same hex files and journeys, whether the append
    fails or succeeds. *)
Theorem log_failure_is_swallowed env :
  (∀ context step w, ∃ w', logStep env context step w = (Ret (), w')) ∧
  (∀ hexId context w,
     agree (enter (with_append false env) hexId context w)
           (enter (with_append true env) hexId context w)) ∧
  (∀ fromHexId edgeId context w,
     agree (traverse (with_append false env) fromHexId edgeId context w)
           (traverse (with_append true env) fromHexId edgeId context w)) ∧
  (∀ hexId incoming context w,
     agree (deposit (with_append false env) hexId incoming context w)
           (deposit (with_append true env) hexId incoming context w)).
Proof.
  split_and!.
  - intros context step w. rewrite logStep_unfold. eauto.
  - intros hexId context w. rewrite !enter_unfold.
    destruct (hexDir w !! hexId) as [h|], context as [ctx|]; try done;
      by rewrite !logStep_unfold.
  - intros fromHexId edgeId context w.
    destruct (hexDir w !! fromHexId) as [h|] eqn:Hsource;
      [|by rewrite !traverse_source_missing].
    destruct (List.find (λ e, String.eqb (edge_id e) edgeId) (edges h)) as [edge|] eqn:Hedge;
      [|by rewrite !(traverse_edge_missing _ _ _ _ _ _ Hsource Hedge)].
    rewrite !(traverse_edge_found _ _ _ _ _ _ _ Hsource Hedge).
    destruct (evaluateCondition (when edge) context) as [[]|]; try done;
      simpl; by rewrite !logStep_unfold.
  - intros hexId incoming context w. rewrite !deposit_unfold.
    destruct (hexDir w !! hexId) as [h|]; [|done]. simpl.
    destruct (write_ok env); [|done].
    destruct context as [ctx|]; try done; by rewrite !logStep_unfold.
Qed.

(** C10: a [traverse] that returns [success: false], and a [deposit] that
    returns [false], leave the world as it was — no journey step in the
    journey map or in the log file, no hex written — the failed traversal
    carries no payload, and [deposit] returns [false] only for a hex that
    does not exist. *)
Theorem failure_leaves_world_unchanged :
  (∀ env fromHexId edgeId context w r w',
     traverse env fromHexId edgeId context w = (Ret r, w') →
     success r = false →
     w' = w ∧ result_payload r = VUndefined) ∧
  (∀ env hexId incoming context w w',
     deposit env hexId incoming context w = (Ret false, w') →
     w' = w ∧ hexDir w !! hexId = None).
Proof.
  split.
  - intros env fromHexId edgeId context w r w'.
    destruct (hexDir w !! fromHexId) as [h|] eqn:Hsource;
      [|rewrite traverse_source_missing by done; by intros [= <- <-]].
    destruct (List.find (λ e, String.eqb (edge_id e) edgeId) (edges h)) as [edge|] eqn:Hedge;
      [|rewrite (traverse_edge_missing _ _ _ _ _ _ Hsource Hedge); by intros [= <- <-]].
    rewrite (traverse_edge_found _ _ _ _ _ _ _ Hsource Hedge).
    destruct (evaluateCondition (when edge) context) as [[]|]; simpl; [|by intros [= <- <-]|done].
    by intros [= <- <-].
  - intros env hexId incoming context w w'. rewrite deposit_unfold.
    destruct (hexDir w !! hexId) as [h|]; [|by intros [= <-]].
    simpl. destruct (write_ok env); [|done]. by destruct context.
Qed.

Lemma failure_leaves_world_unchanged_witness :
  traverse calm_env "code-standards" "to-testing"
    (sample_context (Some "deploy to production") abc_payload) graph_world
  = (Ret (failure "testing-qa" "Edge condition not met"), graph_world) ∧
  (graph_world = graph_world ∧
   result_payload (failure "testing-qa" "Edge condition not met") = VUndefined) ∧
  deposit calm_env "missing-hex" VNull (Some (sample_context None VUndefined)) graph_world
  = (Ret false, graph_world) ∧
  (graph_world = graph_world ∧ hexDir graph_world !! "missing-hex" = None).
Proof.
  destruct failure_leaves_world_unchanged as [Htraverse Hdeposit].
  split; [reflexivity|]. split.
  { apply (Htraverse calm_env "code-standards" "to-testing"
             (sample_context (Some "deploy to production") abc_payload) graph_world
             (failure "testing-qa" "Edge condition not met") graph_world);
      reflexivity. }
  split; [reflexivity|].
  apply (Hdeposit calm_env "missing-hex" VNull
           (Some (sample_context None VUndefined)) graph_world graph_world).
  reflexivity.
Defined.

(** ** What [deposit] stores *)

Lemma merge_data_arrays existing incoming :
  merge_data (VArr existing) (VArr incoming) = VArr (existing ++ incoming).
Proof. done. Qed.

Lemma merge_data_objects existing incoming :
  merge_data (VObj existing) (VObj incoming) = VObj (incoming ∪ existing).
Proof. done. Qed.

Lemma merge_data_replace existing incoming :
  typeof existing ≠ TObject ∨ typeof incoming ≠ TObject →
  merge_data existing incoming = incoming.
Proof.
  unfold merge_data. intros [Htype|Htype].
  - destruct existing; try done; by destruct incoming.
  - destruct incoming; try done; by destruct existing.
Qed.

Lemma merge_data_examples :
  merge_data (VObj {[ "x" := VNum 1 ]}) (VObj {[ "y" := VNum 2 ]})
    = VObj {[ "x" := VNum 1; "y" := VNum 2 ]} ∧
  merge_data (VArr [VNum 1; VNum 2]) (VArr [VNum 3]) = VArr [VNum 1; VNum 2; VNum 3] ∧
  merge_data (VStr "str") (VObj {[ "z" := VNum 1 ]}) = VObj {[ "z" := VNum 1 ]}.
Proof. done. Qed.

(** C4 (code evaluated at the failing input): [deposit] tests
    [typeof === "object"], which [null] and arrays pass.  Depositing [null]
    onto [{x:1}] spreads both and stores [{x:1}], not [null]; depositing
    [[3]] onto [{x:1}] stores [{x:1, "0":3}], not [[3]]. *)
Theorem deposit_spreads_null_and_arrays :
  (∀ existing, merge_data (VObj existing) VNull = VObj existing) ∧
  (∀ existing incoming,
     merge_data (VObj existing) (VArr incoming) = VObj (indexed id incoming ∪ existing)) ∧
  (∃ w h, deposit calm_env "code-standards" VNull None graph_world = (Ret true, w) ∧
          hexDir w !! "code-standards" = Some h ∧
          data (contents h) = VObj {[ "x" := VNum 1 ]}) ∧
  (∃ w h, deposit calm_env "code-standards" (VArr [VNum 3]) None graph_world = (Ret true, w) ∧
          hexDir w !! "code-standards" = Some h ∧
          data (contents h) = VObj {[ "x" := VNum 1; "0" := VNum 3 ]}).
Proof.
  split_and!.
  - intros existing. unfold merge_data. simpl. by rewrite (left_id_L ∅ (∪)).
  - done.
  - eexists _, _. split_and!; [rewrite deposit_unfold; reflexivity|reflexivity|reflexivity].
  - eexists _, _. split_and!; [rewrite deposit_unfold; reflexivity|reflexivity|reflexivity].
Qed.

(** ** [getJourneyLog] *)

Lemma getJourneyLog_unfold limit w :
  getJourneyLog limit w =
  match journeyLogFile w with
  | Some entries => (Ret (slice entries (- default default_log_limit limit) None), w)
  | None => (Ret [], w)
  end.
Proof.
  unfold getJourneyLog, try_catch, mbind, m_bind, readFile, mret, m_ret.
  by destruct (journeyLogFile w).
Qed.

(** With a positive limit (100 by default) the most recent entries are
    returned, all of them when there are fewer; a missing or empty log
    gives the empty list. *)
Lemma getJourneyLog_recent limit w :
  (0 < default 100 limit)%Z →
  getJourneyLog limit w =
  (Ret (let entries := default [] (journeyLogFile w) in
        drop (length entries - Z.to_nat (default 100%Z limit)) entries), w).
Proof.
  intros Hlimit. rewrite getJourneyLog_unfold.
  destruct (journeyLogFile w) as [entries|]; simpl; [|done].
  by rewrite slice_last.
Qed.

(** C9 (code evaluated at the failing input): with the limit 0,
    [steps.slice(-0)] is [steps.slice(0)]: the whole log is returned, not
    its most recent 0 entries. *)
Theorem getJourneyLog_zero_limit hexes js entries :
  getJourneyLog (Some 0%Z)
    {| hexDir := hexes; journeys := js; journeyLogFile := Some entries |}
  = (Ret entries, {| hexDir := hexes; journeys := js; journeyLogFile := Some entries |}).
Proof.
  rewrite getJourneyLog_unfold. simpl. by rewrite slice_minus_zero.
Qed.

(* ================================================================== *)
(** * Further properties *)
(* ================================================================== *)

(** ** Stability of [js_sort] *)

Section sort_stable.
Context {A : Type} (cmp : A → A → Qc) (same : A → Prop) `{!∀ x, Decision (same x)}.

(** Two elements of the class tie: the earlier one may stand first. *)
Hypothesis same_tie : ∀ x y, same x → same y → precedes cmp x y.

Lemma filter_sort_insert x l :
  filter same (sort_insert cmp x l) = filter same (x :: l).
Proof using same_tie.
  induction l as [|y l IH]; [done|]. cbn [sort_insert].
  destruct (decide (cmp x y ≤ 0)%Qc) as [Hxy|Hxy]; [done|].
  rewrite filter_cons, IH, !filter_cons.
  destruct (decide (same y)) as [Hy|Hy]; [|done].
  destruct (decide (same x)) as [Hx|Hx]; [|done].
  destruct Hxy. by apply same_tie.
Qed.

Lemma filter_js_sort l : filter same (js_sort cmp l) = filter same l.
Proof using same_tie.
  induction l as [|x l IH]; [done|].
  unfold js_sort in *. cbn [foldr].
  by rewrite filter_sort_insert, !filter_cons, IH.
Qed.
End sort_stable.

(** ** [nextSteps] *)

Lemma precedes_by_priority a b : precedes by_priority a b ↔ priority_before a b.
Proof.
  unfold precedes, by_priority, priority_before.
  rewrite <-Z2Qc_inj_0, <-Z2Qc_inj_le. lia.
Qed.

Lemma by_priority_total a b : ¬ precedes by_priority a b → precedes by_priority b a.
Proof. rewrite !precedes_by_priority. unfold priority_before. lia. Qed.

Lemma priority_before_trans : Transitive priority_before.
Proof. intros a b c. unfold priority_before. lia. Qed.

Lemma StronglySorted_js_sort_by_priority es :
  StronglySorted priority_before (js_sort by_priority es).
Proof.
  apply Sorted_StronglySorted; [apply priority_before_trans|].
  eapply Sorted_weaken; [|apply Sorted_js_sort, by_priority_total].
  intros a b. by rewrite precedes_by_priority.
Qed.

Lemma keep_matching_Ret context acc edge acc' :
  keep_matching context acc edge = Ret acc' →
  ∃ holds, evaluateCondition (when edge) context = Ret holds ∧
           acc' = acc ++ filter (guard_holds context) [edge].
Proof.
  unfold keep_matching, guard_holds.
  destruct (evaluateCondition (when edge) context) as [holds|] eqn:Hguard; simpl; [|done].
  intros [= <-]. exists holds. split; [done|].
  rewrite filter_cons, filter_nil.
  destruct holds.
  - by rewrite decide_True by exact Hguard.
  - rewrite decide_False; [by rewrite app_nil_r|].
    unfold guard_holds. by rewrite Hguard.
Qed.

Lemma keep_matching_loop context es acc r :
  for_of es (keep_matching context) acc = Ret r →
  r = acc ++ filter (guard_holds context) es.
Proof.
  revert acc. induction es as [|edge es IH]; intros acc; simpl.
  - intros [= <-]. by rewrite filter_nil, app_nil_r.
  - destruct (keep_matching context acc edge) as [acc'|] eqn:Hturn; simpl; [|done].
    intros ->%IH. apply keep_matching_Ret in Hturn as (holds & _ & ->).
    rewrite <-app_assoc. f_equal. by rewrite <-filter_app.
Qed.

Lemma nextSteps_unfold hexId context w :
  nextSteps hexId context w =
  match hexDir w !! hexId with
  | None => (Ret [], w)
  | Some h =>
      (matchingEdges ← for_of (edges h) (keep_matching context) [];
       Ret (js_sort by_priority matchingEdges), w)
  end.
Proof.
  unfold nextSteps, mbind, m_bind, getHex, lift, mret, m_ret, res_bind. simpl.
  destruct (hexDir w !! hexId) as [h|]; [|done].
  by destruct (for_of _ _ _).
Qed.

(** X1: [nextSteps] does not change the world; for a missing hex it
    returns the empty list; otherwise the edges it returns are exactly the
    edges of the hex whose guard holds, by non-increasing priority, edges of
    equal priority in the order of the hex. *)
Theorem nextSteps_matching_by_priority hexId context w es w' :
  nextSteps hexId context w = (Ret es, w') →
  w' = w ∧
  match hexDir w !! hexId with
  | None => es = []
  | Some h =>
      es ≡ₚ filter (guard_holds context) (edges h) ∧
      StronglySorted priority_before es ∧
      ∀ p, filter (λ e, priority e = p) es =
           filter (λ e, priority e = p) (filter (guard_holds context) (edges h))
  end.
Proof.
  rewrite nextSteps_unfold.
  destruct (hexDir w !! hexId) as [h|]; [|by intros [= <- <-]].
  destruct (for_of _ _ _) as [matching|] eqn:Hloop; simpl; [|done].
  intros [= <- <-]. apply keep_matching_loop in Hloop as ->. simpl.
  split_and!; [done|apply js_sort_Permutation|apply StronglySorted_js_sort_by_priority|].
  intros p. apply filter_js_sort.
  intros a b Ha Hb. apply precedes_by_priority. unfold priority_before. lia.
Qed.

Lemma nextSteps_matching_by_priority_witness :
  ∃ es, nextSteps "junction" report_context junction_world = (Ret es, junction_world) ∧
        edge_id <$> es = ["to-report"; "to-ops"; "to-intake"; "back-to-hub"] ∧
        StronglySorted priority_before es.
Proof.
  assert (∃ es, nextSteps "junction" report_context junction_world = (Ret es, junction_world) ∧
                edge_id <$> es = ["to-report"; "to-ops"; "to-intake"; "back-to-hub"])
    as (es & Hrun & Hids).
  { eexists. split; vm_compute; reflexivity. }
  exists es. split; [exact Hrun|]. split; [exact Hids|].
  destruct (nextSteps_matching_by_priority _ _ _ _ _ Hrun) as (_ & Hedges).
  destruct (hexDir junction_world !! "junction"); [apply Hedges|].
  rewrite Hedges. constructor.
Defined.

Lemma keep_matching_returns context acc edge :
  (∃ acc', keep_matching context acc edge = Ret acc') ↔
  ∃ holds, evaluateCondition (when edge) context = Ret holds.
Proof.
  unfold keep_matching.
  destruct (evaluateCondition (when edge) context) as [holds|]; simpl.
  - split; eauto.
  - split; by intros [? ?].
Qed.

Lemma for_of_Throw_turn {A S} (xs : list A) (body : S → A → Res S) acc e :
  for_of xs body acc = Throw e → ∃ x s, x ∈ xs ∧ body s x = Throw e.
Proof.
  revert acc. induction xs as [|x xs IH]; intros acc; simpl; [done|].
  destruct (body acc x) as [acc'|e'] eqn:Hx; simpl.
  - intros (y & s & Hy & Hthrow)%IH. exists y, s. split; [by right|done].
  - intros [= ->]. exists x, acc. split; [left|done].
Qed.

(** X2: [nextSteps] evaluates the guard of every edge of the hex, matching
    or not: it throws exactly when the guard of some edge throws. *)
Theorem nextSteps_throws_with_any_guard hexId context w h :
  hexDir w !! hexId = Some h →
  (∃ e, nextSteps hexId context w = (Throw e, w)) ↔
  ∃ edge e, edge ∈ edges h ∧ evaluateCondition (when edge) context = Throw e.
Proof.
  intros Hhex. rewrite nextSteps_unfold, Hhex. split.
  - intros [e Hrun].
    destruct (for_of _ _ _) as [matching|e'] eqn:Hloop; simpl in Hrun; [done|].
    apply for_of_Throw_turn in Hloop as (edge & acc & Hin & Hturn).
    exists edge, e'. split; [done|].
    unfold keep_matching in Hturn.
    destruct (evaluateCondition (when edge) context); simpl in Hturn; [done|].
    by injection Hturn as ->.
  - intros (edge & e & Hin & Hguard).
    destruct (for_of _ _ _) as [matching|e'] eqn:Hloop; simpl; [|eauto].
    apply for_of_turns in Hloop.
    eapply Forall_forall in Hloop; [|done].
    destruct Hloop as (acc & acc' & Hturn).
    unfold keep_matching in Hturn. by rewrite Hguard in Hturn.
Qed.

Lemma nextSteps_throws_with_any_guard_witness :
  ∃ e, nextSteps "junction" (sample_context (Some "constructor injection") VUndefined)
         junction_world = (Throw e, junction_world).
Proof.
  apply (nextSteps_throws_with_any_guard "junction" _ junction_world
           (sample_hex "junction" "Data Router" ["route data"] ["routing"]
              junction_edges VNull)); [reflexivity|].
  exists (prioritized 5 (sample_edge "to-ops" "ops-ship"
                           (intent_guard "deploy production") None)), TypeError.
  split; [right; left|vm_compute; reflexivity].
Defined.

Lemma find_edge_NoDup (es : list Edge) edge :
  NoDup (edge_id <$> es) → edge ∈ es →
  List.find (λ e, String.eqb (edge_id e) (edge_id edge)) es = Some edge.
Proof.
  induction es as [|e es IH]; simpl; [by intros _ []%elem_of_nil|].
  intros [Hfresh Hrest]%NoDup_cons [->|Hin]%elem_of_cons.
  - by rewrite String.eqb_refl.
  - destruct (String.eqb_spec (edge_id e) (edge_id edge)) as [Heq|]; [|by apply IH].
    destruct Hfresh. rewrite Heq. apply list_elem_of_fmap. by exists edge.
Qed.



(** ** [tokenize] *)

Lemma list_ascii_of_append s1 s2 :
  String.list_ascii_of_string (s1 +:+ s2) =
  String.list_ascii_of_string s1 ++ String.list_ascii_of_string s2.
Proof. induction s1 as [|c s1 IH]; simpl; [done|]. by rewrite IH. Qed.

Lemma string_length_list_ascii s :
  String.length s = length (String.list_ascii_of_string s).
Proof. induction s as [|c s IH]; simpl; [done|]. by rewrite IH. Qed.

Lemma strip_chars_kept s :
  Forall (λ c, kept_char c = true) (String.list_ascii_of_string (strip_chars s)).
Proof.
  unfold strip_chars. rewrite String.list_ascii_of_string_of_list_ascii.
  apply Forall_forall. intros c [Hc _]%list_elem_of_filter. by destruct (kept_char c).
Qed.

Lemma kept_not_whitespace c :
  kept_char c = true → is_whitespace c = false → token_char c = true.
Proof.
  unfold kept_char, token_char. intros Hkept Hws. by rewrite Hws, orb_false_r in Hkept.
Qed.

Lemma split_ws_aux_pieces in_ws cur s :
  Forall (λ c, kept_char c = true) (String.list_ascii_of_string s) →
  Forall (λ c, token_char c = true) (String.list_ascii_of_string cur) →
  Forall (λ piece, Forall (λ c, token_char c = true) (String.list_ascii_of_string piece))
         (split_ws_aux in_ws cur s).
Proof.
  revert in_ws cur. induction s as [|c s IH]; intros in_ws cur Hs Hcur; simpl.
  - by constructor.
  - simpl in Hs. apply Forall_cons in Hs as [Hc Hs].
    destruct (is_whitespace c) eqn:Hws.
    + destruct in_ws; [by apply IH|].
      constructor; [done|]. apply IH; [done|constructor].
    + apply IH; [done|]. rewrite list_ascii_of_append. apply Forall_app.
      split; [done|]. simpl. constructor; [|constructor]. by apply kept_not_whitespace.
Qed.

Lemma tokenize_shape text word : word ∈ tokenize text → token_shaped word.
Proof.
  unfold tokenize. intros [Hlen Hin]%list_elem_of_filter. split; [done|].
  pose proof (split_ws_aux_pieces false EmptyString _ (strip_chars_kept (toLowerCase text))
                (Forall_nil_2 _)) as Hpieces.
  by eapply Forall_forall in Hpieces.
Qed.

(** X4: every token is longer than two characters and made of lowercase
    letters and digits only, whatever the text. *)
Theorem tokens_are_lowercase_words text :
  Forall token_shaped (tokenize text).
Proof. apply Forall_forall. intros word. apply tokenize_shape. Qed.

Lemma inherited_token_shaped word :
  is_inherited word = true → token_shaped word → word = "constructor".
Proof.
  unfold is_inherited, object_prototype_members.
  intros Hin%bool_decide_eq_true [_ Hchars].
  repeat (apply elem_of_cons in Hin as [->|Hin]); try done;
    try (apply (bool_decide_pack _) in Hchars; by vm_compute in Hchars).
  by apply elem_of_nil in Hin.
Qed.

(** X5: among the words that reach [Object.prototype] through
    [CONCEPT_MAP[word]], "constructor" is the only one that a text can
    produce: a text makes [expandWithSynonyms] throw exactly when one of its
    tokens is "constructor". *)
Theorem only_constructor_breaks_expansion text :
  (∀ word, word ∈ tokenize text → is_inherited word = true → word = "constructor") ∧
  ((∃ e, expandWithSynonyms (tokenize text) = Throw e) ↔ "constructor" ∈ tokenize text).
Proof.
  assert (∀ word, word ∈ tokenize text → is_inherited word = true → word = "constructor")
    as Honly.
  { intros word Hin Hword. apply inherited_token_shaped; [done|]. by eapply tokenize_shape. }
  split; [done|]. split.
  - intros [e (-> & word & Hin & Hlookup)%expand_with_Throw].
    assert (is_inherited word = true) as Hword.
    { destruct (is_inherited word) eqn:Hw; [done|]. by apply plain_word_lookup in Hw. }
    by rewrite <-(Honly word Hin Hword).
  - intros Hin.
    destruct (expandWithSynonyms (tokenize text)) as [expanded|e] eqn:Hexp; [|eauto].
    assert (plain_words (tokenize text)) as Hplain
      by (apply expandWithSynonyms_returns; eauto).
    apply (proj1 (Forall_forall _ _) Hplain) in Hin. by vm_compute in Hin.
Qed.

Lemma only_constructor_breaks_expansion_witness :
  ∃ e, expandWithSynonyms (tokenize "Constructor injection") = Throw e.
Proof.
  apply (proj2 (proj2 (only_constructor_breaks_expansion "Constructor injection"))).
  apply (bool_decide_unpack _). by vm_compute.
Defined.

Lemma lower_char_idemp c : lower_char (lower_char c) = lower_char c.
Proof. by destruct c as [[] [] [] [] [] [] [] []]. Qed.

Lemma toLowerCase_idemp s : toLowerCase (toLowerCase s) = toLowerCase s.
Proof.
  unfold toLowerCase. rewrite String.list_ascii_of_string_of_list_ascii, <-list_fmap_compose.
  f_equal. apply list_fmap_ext. intros _ c _. apply lower_char_idemp.
Qed.

(** X6: matching ignores the case of letters: a text and its lowercase
    form have the same tokens, and [query] gives the same outcome for
    both. *)
Theorem query_ignores_case text :
  tokenize (toLowerCase text) = tokenize text ∧
  ∀ limit w, query (toLowerCase text) limit w = query text limit w.
Proof.
  assert (tokenize (toLowerCase text) = tokenize text) as Htokens.
  { unfold tokenize. by rewrite toLowerCase_idemp. }
  split; [done|]. intros limit w. by rewrite !query_unfold, Htokens.
Qed.

(** ** [expandWithSynonyms] and [wordOverlap] *)

Lemma NoDup_set_add w s : NoDup s → NoDup (set_add w s).
Proof.
  intros Hs. unfold set_add. case_bool_decide as Hw; [done|].
  apply NoDup_app. split_and!; [done| |apply NoDup_singleton].
  intros x Hx ->%list_elem_of_singleton. done.
Qed.

Lemma NoDup_set_add_all ws s : NoDup s → NoDup (set_add_all ws s).
Proof.
  unfold set_add_all. revert s. induction ws as [|w ws IH]; intros s Hs; simpl; [done|].
  by apply IH, NoDup_set_add.
Qed.

Lemma NoDup_expand_by_value table word expanded :
  NoDup expanded → NoDup (expand_by_value table word expanded).
Proof.
  unfold expand_by_value. revert expanded.
  induction table as [|[key synonyms] t IH]; intros expanded Hexp; simpl; [done|].
  apply IH. case_bool_decide; [|done]. by apply NoDup_set_add_all, NoDup_set_add.
Qed.

Lemma NoDup_expand_with table words expanded :
  expand_with table words = Ret expanded → NoDup expanded.
Proof.
  unfold expand_with. apply for_of_invariant.
  - intros s word s' _ Hs. unfold expand_word.
    destruct (concept_lookup table word); simpl; try done; intros [= <-].
    + by apply NoDup_expand_by_value, NoDup_set_add_all.
    + by apply NoDup_expand_by_value.
  - apply NoDup_set_add_all, NoDup_nil_2.
Qed.

Lemma brought_in_vocabulary table word x : brought_in table word x → x ∈ vocabulary table.
Proof.
  unfold vocabulary.
  intros [(syns & Hkey%assoc_Some_elem_of & Hx)|(key & syns & Hentry & _ & Hx)];
    apply list_elem_of_bind.
  - exists (word, syns). split; [by right|done].
  - exists (key, syns). split; [|done]. simpl. destruct Hx as [->|?]; [left|by right].
Qed.

(** X7: an expansion lists every word once, keeps the words it was given,
    and adds only keys and synonyms of the concept map; words the map does
    not know expand to themselves, duplicates removed. *)
Theorem expansion_is_a_set words expanded :
  expandWithSynonyms words = Ret expanded →
  NoDup expanded ∧
  (∀ word, word ∈ words → word ∈ expanded) ∧
  (∀ x, x ∈ expanded → x ∈ words ∨ x ∈ vocabulary CONCEPT_MAP) ∧
  ((∀ word, word ∈ words → word ∉ vocabulary CONCEPT_MAP) →
   expanded ≡ₚ remove_dups words).
Proof.
  intros Hexp.
  pose proof (NoDup_expand_with _ _ _ Hexp) as Hnodup.
  pose proof (elem_of_expand_with _ _ _ Hexp) as Hin.
  split_and!; [done| | |].
  - intros word Hword. apply Hin. by left.
  - intros x [?|(word & _ & Hx)]%Hin; [by left|right]. by eapply brought_in_vocabulary.
  - intros Hunknown. apply NoDup_Permutation; [done|apply NoDup_remove_dups|].
    intros x. rewrite elem_of_remove_dups, Hin. split; [|by left].
    intros [?|(word & Hword & Hx)]; [done|].
    destruct (Hunknown word Hword).
    destruct Hx as [(syns & Hkey%assoc_Some_elem_of & _)|(key & syns & Hentry & Hw & _)];
      apply list_elem_of_bind.
    + exists (word, syns). split; [left|done].
    + exists (key, syns). split; [by right|done].
Qed.

Lemma expansion_is_a_set_witness :
  NoDup ["deploy"; "fast"; "ship"; "ops"; "launch"; "release"; "production"; "ci"; "cd"].
Proof.
  apply (expansion_is_a_set ["deploy"; "fast"; "deploy"]). reflexivity.
Defined.

Lemma wordOverlap_pos_iff a b : 0 < wordOverlap a b ↔ ∃ word, word ∈ a ∧ word ∈ b.
Proof.
  split; [|intros (word & ? & ?); by eapply wordOverlap_pos].
  unfold wordOverlap. intros Hlen.
  destruct (filter (λ w, w ∈ b) a) as [|word l] eqn:Hfilter; [simpl in Hlen; lia|].
  exists word.
  assert (word ∈ filter (λ w, w ∈ b) a) as [? ?]%list_elem_of_filter
    by (rewrite Hfilter; left).
  done.
Qed.

(** X8: the overlap of two word lists is positive exactly when they share
    a word, and never exceeds the first list; between two lists without
    duplicates — two expansions — it does not depend on the order of the
    arguments. *)
Theorem wordOverlap_counts_shared_words a b :
  (0 < wordOverlap a b ↔ ∃ word, word ∈ a ∧ word ∈ b) ∧
  wordOverlap a b ≤ length a ∧
  (NoDup a → NoDup b → wordOverlap a b = wordOverlap b a).
Proof.
  split_and!; [apply wordOverlap_pos_iff|apply length_filter|].
  intros Ha Hb. unfold wordOverlap. apply Permutation_length.
  apply NoDup_Permutation; [by apply NoDup_filter..|].
  intros x. rewrite !list_elem_of_filter. tauto.
Qed.

Lemma wordOverlap_counts_shared_words_witness :
  wordOverlap ["button"; "form"; "click"] ["form"; "field"; "button"] =
  wordOverlap ["form"; "field"; "button"] ["button"; "form"; "click"].
Proof.
  apply wordOverlap_counts_shared_words; apply (bool_decide_unpack _); by vm_compute.
Defined.

(** ** [evaluateCondition], clause by clause *)

Lemma has_own_key_true carried key :
  has_own_key carried key = true ↔ is_Some (own_entries carried !! key).
Proof. unfold has_own_key. apply bool_decide_eq_true. Qed.

Lemma has_own_key_false carried key :
  has_own_key carried key = false ↔ own_entries carried !! key = None.
Proof.
  unfold has_own_key. rewrite bool_decide_eq_false, <-eq_None_not_Some. done.
Qed.

(** The three payload clauses of the code, on a truthy payload. *)
Lemma payload_clauses_spec condition carried :
  (match hasData condition with
   | Some keys => forallb (has_own_key carried) keys
   | None => true
   end
   && match lacks condition with
      | Some keys => existsb (λ key, negb (has_own_key carried key)) keys
      | None => true
      end
   && match cond_match condition with
      | Some entries =>
          forallb (λ '(key, value), strict_eq (get_property carried key) value) entries
      | None => true
      end = true) ↔ payload_clauses_hold condition carried.
Proof.
  unfold payload_clauses_hold. rewrite !andb_true_iff.
  assert (match hasData condition with
          | Some keys => forallb (has_own_key carried) keys
          | None => true
          end = true ↔
          ∀ keys, hasData condition = Some keys →
                  ∀ key, key ∈ keys → is_Some (own_entries carried !! key)) as ->.
  { destruct (hasData condition) as [keys|].
    - rewrite forallb_forall. split.
      + intros Hall ? [= <-] key Hkey. by apply has_own_key_true, Hall, list_elem_of_In.
      + intros Hall key Hkey%list_elem_of_In. by apply has_own_key_true, (Hall keys).
    - split; [by intros _ ? [=]|done]. }
  assert (match lacks condition with
          | Some keys => existsb (λ key, negb (has_own_key carried key)) keys
          | None => true
          end = true ↔
          ∀ keys, lacks condition = Some keys →
                  ∃ key, key ∈ keys ∧ own_entries carried !! key = None) as ->.
  { destruct (lacks condition) as [keys|].
    - rewrite existsb_exists. split.
      + intros (key & Hkey%list_elem_of_In & Hmissing%negb_true_iff%has_own_key_false)
          ? [= <-]. eauto.
      + intros Hsome. destruct (Hsome keys eq_refl) as (key & Hkey & Hmissing).
        exists key. split; [by apply list_elem_of_In|].
        by apply negb_true_iff, has_own_key_false.
    - split; [by intros _ ? [=]|done]. }
  assert (match cond_match condition with
          | Some entries =>
              forallb (λ '(key, value), strict_eq (get_property carried key) value) entries
          | None => true
          end = true ↔
          ∀ entries, cond_match condition = Some entries →
                     ∀ key value, (key, value) ∈ entries →
                                  strict_eq (get_property carried key) value = true) as ->.
  { destruct (cond_match condition) as [entries|].
    - rewrite forallb_forall. split.
      + intros Hall ? [= <-] key value Hin%list_elem_of_In. by apply (Hall (key, value)).
      + intros Hall [key value] Hin%list_elem_of_In. by apply (Hall entries).
    - split; [by intros _ ? [=]|done]. }
  tauto.
Qed.

Lemma evaluateCondition_payload_part condition context :
  default false (always condition) = false →
  (truthy_string (cond_intent condition) = None ∨ truthy_string (intent context) = None) →
  evaluateCondition condition context =
  Ret (if truthy (payload context)
       then match hasData condition with
            | Some keys => forallb (has_own_key (payload context)) keys
            | None => true
            end
            && match lacks condition with
               | Some keys => existsb (λ key, negb (has_own_key (payload context) key)) keys
               | None => true
               end
            && match cond_match condition with
               | Some entries =>
                   forallb (λ '(key, value),
                              strict_eq (get_property (payload context) key) value) entries
               | None => true
               end
       else true).
Proof.
  intros Halways Hintent. unfold evaluateCondition. rewrite Halways.
  assert (match truthy_string (cond_intent condition), truthy_string (intent context) with
          | Some cond_text, Some ctx_text =>
              expandedCondition ← expandWithSynonyms (tokenize cond_text);
              expandedIntent ← expandWithSynonyms (tokenize ctx_text);
              Ret (negb (wordOverlap expandedCondition expandedIntent =? 0))
          | _, _ => Ret true
          end = Ret true) as ->.
  { destruct Hintent as [-> | ->]; [done|]. by destruct (truthy_string (cond_intent condition)). }
  simpl. destruct (truthy (payload context)).
  - destruct (hasData condition) as [hs|], (lacks condition) as [ls|],
      (cond_match condition) as [ms|]; simpl;
      repeat match goal with |- context [forallb ?f ?l] => destruct (forallb f l) end;
      repeat match goal with |- context [existsb ?f ?l] => destruct (existsb f l) end;
      done.
  - by destruct (hasData condition), (lacks condition), (cond_match condition).
Qed.

Lemma evaluateCondition_intent_part condition context cond_text ctx_text :
  default false (always condition) = false →
  truthy_string (cond_intent condition) = Some cond_text →
  truthy_string (intent context) = Some ctx_text →
  evaluateCondition condition context =
  (expandedCondition ← expandWithSynonyms (tokenize cond_text);
   expandedIntent ← expandWithSynonyms (tokenize ctx_text);
   if wordOverlap expandedCondition expandedIntent =? 0 then Ret false
   else evaluateCondition (without_intent condition) context).
Proof.
  intros Halways Hcond Hctx.
  rewrite (evaluateCondition_payload_part (without_intent condition) context
             Halways (or_introl eq_refl)).
  unfold evaluateCondition. rewrite Halways, Hcond, Hctx. simpl.
  destruct (expandWithSynonyms (tokenize cond_text)) as [ec|]; simpl; [|done].
  destruct (expandWithSynonyms (tokenize ctx_text)) as [ex|]; simpl; [|done].
  destruct (wordOverlap ec ex =? 0); simpl; [done|].
  destruct (truthy (payload context)).
  - destruct (hasData condition) as [hs|], (lacks condition) as [ls|],
      (cond_match condition) as [ms|]; simpl;
      repeat match goal with |- context [forallb ?f ?l] => destruct (forallb f l) end;
      repeat match goal with |- context [existsb ?f ?l] => destruct (existsb f l) end;
      done.
  - by destruct (hasData condition), (lacks condition), (cond_match condition).
Qed.

Lemma evaluateCondition_true_iff condition context :
  evaluateCondition condition context = Ret true ↔
  always condition = Some true ∨
  (intent_clause_holds condition context ∧
   (truthy (payload context) = true →
    payload_clauses_hold condition (payload context))).
Proof.
  destruct (default false (always condition)) eqn:Halways.
  { unfold evaluateCondition. rewrite Halways.
    split; [|done]. intros _. left.
    by destruct (always condition) as [[]|]. }
  assert (always condition ≠ Some true) as Hnot by (by intros Heq; rewrite Heq in Halways).
  assert (∀ P, always condition = Some true ∨ P ↔ P) as -> by (intros P; tauto).
  destruct (truthy_string (cond_intent condition)) as [cond_text|] eqn:Hcond;
    [destruct (truthy_string (intent context)) as [ctx_text|] eqn:Hctx|].
  - rewrite (evaluateCondition_intent_part _ _ _ _ Halways Hcond Hctx).
    unfold intent_clause_holds. rewrite Hcond, Hctx.
    destruct (expandWithSynonyms (tokenize cond_text)) as [ec|] eqn:Hec; simpl.
    + destruct (expandWithSynonyms (tokenize ctx_text)) as [ex|] eqn:Hex; simpl.
      * destruct (Nat.eqb_spec (wordOverlap ec ex) 0) as [Hzero|Hpos].
        -- split; [done|]. intros [Hclause _].
           destruct (Hclause _ _ eq_refl eq_refl) as (ec' & ex' & Hec' & Hex' & Hword).
           rewrite Hec in Hec'. rewrite Hex in Hex'.
           injection Hec' as <-. injection Hex' as <-.
           apply wordOverlap_pos_iff in Hword. lia.
        -- assert (∃ word, word ∈ ec ∧ word ∈ ex) as Hword
             by (apply wordOverlap_pos_iff; lia).
           rewrite (evaluateCondition_payload_part (without_intent condition) context
                      Halways (or_introl eq_refl)).
           destruct (truthy (payload context)).
           ++ simpl. rewrite <-(payload_clauses_spec condition).
              split.
              ** intros [= Hb]. split; [|done]. intros ?? [= <-] [= <-]. eauto 10.
              ** intros [_ Hb]. by rewrite Hb.
           ++ split; [|done]. intros _. split; [|done]. intros ?? [= <-] [= <-]. eauto 10.
      * split; [done|]. intros [Hclause _].
        destruct (Hclause _ _ eq_refl eq_refl) as (? & ? & _ & Hex' & _).
        by rewrite Hex in Hex'.
    + split; [done|]. intros [Hclause _].
      destruct (Hclause _ _ eq_refl eq_refl) as (? & ? & Hec' & _).
      by rewrite Hec in Hec'.
  - rewrite (evaluateCondition_payload_part _ _ Halways (or_intror Hctx)).
    assert (intent_clause_holds condition context) as Hclause.
    { intros ?? _ Hsome. by rewrite Hctx in Hsome. }
    destruct (truthy (payload context)).
    + rewrite <-payload_clauses_spec. split.
      * intros [= Hb]. by split.
      * intros [_ Hb]. by rewrite Hb.
    + split; [|done]. by intros _.
  - rewrite (evaluateCondition_payload_part _ _ Halways (or_introl Hcond)).
    assert (intent_clause_holds condition context) as Hclause.
    { intros ?? Hsome. by rewrite Hcond in Hsome. }
    destruct (truthy (payload context)).
    + rewrite <-payload_clauses_spec. split.
      * intros [= Hb]. by split.
      * intros [_ Hb]. by rewrite Hb.
    + split; [|done]. by intros _.
Qed.

(** X9: what a guard asks.  [evaluateCondition] returns [true] exactly when
    [always] is true, or else when the intent clause holds — both intents
    present and non-empty implies that their expansions share a word — and,
    for a truthy payload, every [hasData] key is an own key of the payload,
    some [lacks] key is not, and every [match] value is strictly equal to
    the payload's property. *)
Theorem guard_holds_iff condition context :
  evaluateCondition condition context = Ret true ↔
  always condition = Some true ∨
  (intent_clause_holds condition context ∧
   (truthy (payload context) = true →
    payload_clauses_hold condition (payload context))).
Proof. apply evaluateCondition_true_iff. Qed.

(** X10: with a truthy payload, a guard whose [lacks] keys are all required
    by its [hasData] never holds; in particular a guard with an empty
    [lacks] list never holds. *)
Theorem guard_lacking_required_keys_fails condition context keys :
  default false (always condition) = false →
  truthy (payload context) = true →
  lacks condition = Some keys →
  (∀ key, key ∈ keys → key ∈ default [] (hasData condition)) →
  evaluateCondition condition context ≠ Ret true.
Proof.
  intros Halways Htruthy Hlacks Hrequired [Hyes|[_ Hclauses]]%evaluateCondition_true_iff.
  { by rewrite Hyes in Halways. }
  destruct (Hclauses Htruthy) as (Hhas & Hlack & _).
  destruct (Hlack keys Hlacks) as (key & Hkey & Hmissing).
  apply Hrequired in Hkey.
  destruct (hasData condition) as [required|]; simpl in Hkey;
    [|by apply elem_of_nil in Hkey].
  destruct (Hhas required eq_refl key Hkey) as [v Hv]. by rewrite Hmissing in Hv.
Qed.

Lemma guard_holds_iff_witness :
  payload_clauses_hold (data_guard (Some ["report"]) None) (payload report_context).
Proof.
  destruct (proj1 (guard_holds_iff (data_guard (Some ["report"]) None) report_context))
    as [Halways|[_ Hpayload]]; [reflexivity|discriminate Halways|].
  apply Hpayload. reflexivity.
Defined.

Lemma guard_lacking_required_keys_fails_witness :
  evaluateCondition (data_guard (Some ["report"; "ticket"]) (Some ["report"])) report_context
    ≠ Ret true ∧
  evaluateCondition (data_guard None (Some [])) report_context ≠ Ret true.
Proof.
  split.
  - apply (guard_lacking_required_keys_fails _ report_context ["report"]);
      [reflexivity..|].
    intros key ->%list_elem_of_singleton. simpl. left.
  - apply (guard_lacking_required_keys_fails _ report_context []); [reflexivity..|].
    by intros key Hkey%elem_of_nil.
Defined.

(** X11: with a truthy payload, a guard with a [match] entry whose value is
    an array or an object never holds: [!==] compares references, and the
    payload never holds the very array or object of the stored condition. *)
Theorem match_on_composite_value_fails condition context entries key value :
  default false (always condition) = false →
  truthy (payload context) = true →
  cond_match condition = Some entries →
  (key, value) ∈ entries →
  is_composite value →
  evaluateCondition condition context ≠ Ret true.
Proof.
  intros Halways Htruthy Hmatch Hentry Hvalue [Hyes|[_ Hclauses]]%evaluateCondition_true_iff.
  { by rewrite Hyes in Halways. }
  destruct (Hclauses Htruthy) as (_ & _ & Hequal).
  specialize (Hequal entries Hmatch key value Hentry).
  destruct value; try done; by destruct (get_property (payload context) key).
Qed.

Lemma match_on_composite_value_fails_witness :
  evaluateCondition
    {| cond_intent := None; hasData := None; lacks := None;
       cond_match := Some [("tags", VArr [VStr "urgent"])]; always := None |}
    (sample_context None (VObj {[ "tags" := VArr [VStr "urgent"] ]})) ≠ Ret true.
Proof.
  apply (match_on_composite_value_fails _ _ [("tags", VArr [VStr "urgent"])]
           "tags" (VArr [VStr "urgent"])); [reflexivity..|left|exact I].
Defined.

Lemma wordOverlap_zero_sym a b : (wordOverlap a b =? 0) = (wordOverlap b a =? 0).
Proof.
  destruct (Nat.eqb_spec (wordOverlap a b) 0) as [Hab|Hab],
    (Nat.eqb_spec (wordOverlap b a) 0) as [Hba|Hba]; try done.
  - assert (0 < wordOverlap b a) as (word & ? & ?)%wordOverlap_pos_iff by lia.
    assert (0 < wordOverlap a b) by (apply wordOverlap_pos_iff; eauto). lia.
  - assert (0 < wordOverlap a b) as (word & ? & ?)%wordOverlap_pos_iff by lia.
    assert (0 < wordOverlap b a) by (apply wordOverlap_pos_iff; eauto). lia.
Qed.

(** X12: the intent clause is symmetric: a guard on the intent [a] meets a
    context of intent [b] with the same outcome as a guard on [b] meets a
    context of intent [a]. *)
Theorem intent_guard_symmetric a b context :
  evaluateCondition (intent_guard a) (with_intent (Some b) context) =
  evaluateCondition (intent_guard b) (with_intent (Some a) context).
Proof.
  unfold evaluateCondition, intent_guard. simpl.
  destruct (String.eqb a EmptyString), (String.eqb b EmptyString); simpl; try done.
  destruct (expandWithSynonyms (tokenize a)) as [ea|e1] eqn:Ha,
    (expandWithSynonyms (tokenize b)) as [eb|e2] eqn:Hb; simpl.
  - by rewrite (wordOverlap_zero_sym ea eb).
  - by apply expand_with_Throw in Hb as [-> _].
  - by apply expand_with_Throw in Ha as [-> _].
  - apply expand_with_Throw in Ha as [-> _]. by apply expand_with_Throw in Hb as [-> _].
Qed.

(** ** [applyTransform], key by key *)

Lemma applyTransform_object payload t :
  object_like payload = true →
  applyTransform payload t =
  VObj (when_present apply_inject (inject t)
          (when_present apply_rename (rename t)
             (when_present apply_omit (omit t)
                (when_present apply_pick (pick t) (own_entries payload))))).
Proof.
  unfold object_like, applyTransform. intros [-> ->]%andb_true_iff. simpl.
  by destruct (pick t), (omit t), (rename t), (inject t).
Qed.

Lemma applyTransform_other payload t :
  object_like payload = false → applyTransform payload t = payload.
Proof.
  unfold object_like, applyTransform. intros Hlike.
  destruct (truthy payload); simpl in *; [|done]. by rewrite Hlike.
Qed.

Lemma transform_lookup t (m : gmap string Value) key :
  rename t = None →
  when_present apply_inject (inject t)
    (when_present apply_rename (rename t)
       (when_present apply_omit (omit t)
          (when_present apply_pick (pick t) m))) !! key
  = match default ∅ (inject t) !! key with
    | Some v => Some v
    | None => if selected t key then m !! key else None
    end.
Proof.
  intros ->. unfold selected. simpl.
  assert (when_present apply_omit (omit t) (when_present apply_pick (pick t) m) !! key
          = if match pick t with
               | Some keys => bool_decide (key ∈ keys)
               | None => true
               end
               && match omit t with
                  | Some keys => negb (bool_decide (key ∈ keys))
                  | None => true
                  end
            then m !! key else None) as Hinner.
  { destruct (pick t) as [pk|], (omit t) as [om|]; simpl;
      rewrite ?apply_omit_lookup, ?apply_pick_lookup; repeat case_decide;
      rewrite ?bool_decide_eq_true_2, ?bool_decide_eq_false_2 by done; done. }
  destruct (inject t) as [inj|]; simpl.
  - rewrite apply_inject_lookup, Hinner. done.
  - by rewrite lookup_empty.
Qed.

(** X13: a payload that is falsy or not of type "object" goes through
    [applyTransform] unchanged.  Otherwise the result is an object, and for a
    transform without [rename] its value at a key is the injected value
    when [inject] has the key, else the payload's own value when the key
    passes [pick] and [omit] (a key both picked and omitted is dropped),
    else nothing.  The picked keys are taken not to name members of
    [Object.prototype], which [key in result] would also find. *)
Theorem applyTransform_key_by_key payload t :
  (object_like payload = false → applyTransform payload t = payload) ∧
  (object_like payload = true → rename t = None →
   plain_words (default [] (pick t)) →
   ∃ result,
     applyTransform payload t = VObj result ∧
     ∀ key, result !! key =
            match default ∅ (inject t) !! key with
            | Some v => Some v
            | None => if selected t key then own_entries payload !! key else None
            end).
Proof.
  split; [apply applyTransform_other|].
  intros Hlike Hrename _. eexists. split; [by apply applyTransform_object|].
  intros key. by apply transform_lookup.
Qed.

Lemma applyTransform_key_by_key_witness :
  applyTransform (VStr "report") abc_transform = VStr "report" ∧
  ∃ result,
    applyTransform (VArr [VNum 7; VNum 8])
      {| pick := Some ["0"; "1"]; omit := Some ["1"]; inject := None; rename := None |}
    = VObj result ∧
    result !! "0" = Some (VNum 7) ∧ result !! "1" = None.
Proof.
  destruct (applyTransform_key_by_key (VStr "report") abc_transform) as [Hother _].
  split; [by apply Hother|].
  destruct (applyTransform_key_by_key (VArr [VNum 7; VNum 8])
              {| pick := Some ["0"; "1"]; omit := Some ["1"]; inject := None;
                 rename := None |}) as [_ Hobject].
  destruct Hobject as (result & Hresult & Hlookup);
    [reflexivity|reflexivity|apply (bool_decide_unpack _); by vm_compute|].
  exists result. split; [exact Hresult|]. by rewrite !Hlookup.
Defined.

(** X14: a transform without [rename] is idempotent: applying it to its own
    result changes nothing (picked keys as above). *)
Theorem applyTransform_idempotent payload t :
  rename t = None →
  plain_words (default [] (pick t)) →
  applyTransform (applyTransform payload t) t = applyTransform payload t.
Proof.
  intros Hrename _. destruct (object_like payload) eqn:Hlike.
  - rewrite (applyTransform_object payload t Hlike).
    rewrite applyTransform_object by done. f_equal.
    apply map_eq. intros key.
    rewrite (transform_lookup t _ key Hrename). cbn [own_entries].
    rewrite !(transform_lookup t _ key Hrename).
    destruct (default ∅ (inject t) !! key); [done|].
    by destruct (selected t key).
  - by rewrite !(applyTransform_other payload t Hlike).
Qed.

Lemma applyTransform_idempotent_witness :
  applyTransform
    (applyTransform abc_payload
       {| pick := Some ["a"; "b"]; omit := Some ["b"];
          inject := Some {[ "y" := VNum 9 ]}; rename := None |})
    {| pick := Some ["a"; "b"]; omit := Some ["b"];
       inject := Some {[ "y" := VNum 9 ]}; rename := None |}
  = applyTransform abc_payload
      {| pick := Some ["a"; "b"]; omit := Some ["b"];
         inject := Some {[ "y" := VNum 9 ]}; rename := None |}.
Proof.
  apply applyTransform_idempotent; [reflexivity|].
  apply (bool_decide_unpack _). by vm_compute.
Defined.

(** X15: [rename] of one key.  When the payload has the old key, the result
    has the value under the new key — whatever was there before is lost —
    and nothing under the old key; renaming a key to itself therefore drops
    it.  When the payload does not have the old key, nothing changes.  The
    two keys are taken not to name members of [Object.prototype]. *)
Theorem rename_moves_or_drops (m : gmap string Value) from to_key :
  plain_words [from; to_key] →
  applyTransform (VObj m) (rename_only from to_key) =
  VObj (match m !! from with
        | Some v => delete from (<[to_key := v]> m)
        | None => m
        end) ∧
  (∀ v, m !! from = Some v → from ≠ to_key →
        ∃ result, applyTransform (VObj m) (rename_only from to_key) = VObj result ∧
                  result !! to_key = Some v ∧ result !! from = None ∧
                  ∀ key, key ≠ from → key ≠ to_key → result !! key = m !! key) ∧
  (is_Some (m !! from) →
   applyTransform (VObj m) (rename_only from from) = VObj (delete from m)).
Proof.
  intros _.
  assert (applyTransform (VObj m) (rename_only from to_key) =
          VObj (match m !! from with
                | Some v => delete from (<[to_key := v]> m)
                | None => m
                end)) as Hone by done.
  split_and!; [done| |].
  - intros v Hv Hne. eexists. split; [done|]. rewrite Hv. split_and!.
    + rewrite lookup_delete_ne by done. apply lookup_insert_eq.
    + apply lookup_delete_eq.
    + intros key ? ?. rewrite lookup_delete_ne by done. by rewrite lookup_insert_ne.
  - intros [v Hv].
    change (applyTransform (VObj m) (rename_only from from))
      with (VObj (match m !! from with
                  | Some v => delete from (<[from := v]> m)
                  | None => m
                  end)).
    rewrite Hv. f_equal. apply delete_insert_eq.
Qed.

Lemma rename_moves_or_drops_witness :
  applyTransform abc_payload (rename_only "a" "a")
  = VObj {[ "b" := VNum 2; "c" := VNum 3 ]}.
Proof.
  destruct (rename_moves_or_drops {[ "a" := VNum 1; "b" := VNum 2; "c" := VNum 3 ]} "a" "a")
    as (_ & _ & Hdrop); [apply (bool_decide_unpack _); by vm_compute|].
  unfold abc_payload. rewrite Hdrop; [reflexivity|]. by exists (VNum 1).
Defined.

(** ** What is recorded *)

Lemma steps_of_recorded env context step js :
  steps_of (recorded env context step js) (journey_key context)
  = steps_of js (journey_key context) ++ [step].
Proof.
  unfold steps_of, recorded.
  destruct (js !! journey_key context) as [j|] eqn:Hj.
  - by rewrite lookup_alter_eq, Hj.
  - by rewrite lookup_alter_eq, lookup_insert_eq.
Qed.

Lemma recorded_other env context step js id :
  id ≠ journey_key context → recorded env context step js !! id = js !! id.
Proof.
  intros Hid. unfold recorded. rewrite lookup_alter_ne by done.
  destruct (js !! journey_key context); [done|]. by rewrite lookup_insert_ne.
Qed.

Lemma steps_of_recorded_prefix env context step js id :
  steps_of js id `prefix_of` steps_of (recorded env context step js) id.
Proof.
  destruct (decide (id = journey_key context)) as [->|Hid].
  - rewrite steps_of_recorded. by apply prefix_app_r.
  - unfold steps_of. by rewrite recorded_other.
Qed.

Lemma appended_prefix env entry file :
  default [] file `prefix_of` default [] (appended env entry file).
Proof.
  unfold appended. destruct (append_ok env); [|done]. simpl. by apply prefix_app_r.
Qed.

Lemma logStep_extends env context step w :
  journal_extends w (logStep env context step w).2.
Proof.
  rewrite logStep_unfold. split; simpl.
  - intros id. apply steps_of_recorded_prefix.
  - apply appended_prefix.
Qed.

Lemma journal_extends_refl w : journal_extends w w.
Proof. by split. Qed.

Lemma journal_extends_with_hex key h w w' :
  journal_extends (with_hex key h w) w' → journal_extends w w'.
Proof. done. Qed.

(** X16: [enter] returns the stored hex, or [null], and never touches the
    hex files.  It records something only for an existing hex and a given
    context: then exactly one [enter] step is added at the end of the
    journey named by [origin] ("anonymous" when [origin] is absent or
    empty), and the other journeys are left alone. *)
Theorem enter_records_one_step env hexId context w :
  (enter env hexId context w).1 = Ret (hexDir w !! hexId) ∧
  hexDir (enter env hexId context w).2 = hexDir w ∧
  (hexDir w !! hexId = None ∨ context = None → (enter env hexId context w).2 = w) ∧
  (∀ ctx, is_Some (hexDir w !! hexId) → context = Some ctx →
     steps_of (journeys (enter env hexId context w).2) (journey_key ctx)
     = steps_of (journeys w) (journey_key ctx) ++ [enter_step env hexId ctx] ∧
     ∀ id, id ≠ journey_key ctx →
           journeys (enter env hexId context w).2 !! id = journeys w !! id).
Proof.
  rewrite enter_unfold.
  destruct (hexDir w !! hexId) as [h|] eqn:Hhex, context as [ctx|]; simpl;
    rewrite ?logStep_unfold; simpl.
  - split_and!; [done..| |].
    + by intros [[=]|[=]].
    + intros ? _ [= <-]. split; [apply steps_of_recorded|].
      intros id Hid. by apply recorded_other.
  - split_and!; [done..|]. by intros ? _ [=].
  - split_and!; [done..|]. by intros ? [? [=]].
  - split_and!; [done..|]. by intros ? [? [=]].
Qed.

Lemma enter_records_one_step_witness :
  steps_of (journeys (enter calm_env "junction" (Some report_context) junction_world).2)
           "agent-7"
  = [enter_step calm_env "junction" report_context].
Proof.
  destruct (enter_records_one_step calm_env "junction" (Some report_context) junction_world)
    as (_ & _ & _ & Hsteps).
  destruct (Hsteps report_context) as [Hlast _]; [by eexists|reflexivity|exact Hlast].
Defined.

(** X17: the journal is append-only.  Whatever [enter], [traverse] and
    [deposit] do — return or throw — every journey keeps the steps it had
    as a prefix of its steps, and the log file keeps the entries it had as
    a prefix of its entries. *)
Theorem journal_is_append_only env w :
  (∀ hexId context, journal_extends w (enter env hexId context w).2) ∧
  (∀ fromHexId edgeId context,
     journal_extends w (traverse env fromHexId edgeId context w).2) ∧
  (∀ hexId incoming context, journal_extends w (deposit env hexId incoming context w).2).
Proof.
  split_and!.
  - intros hexId context. rewrite enter_unfold.
    destruct (hexDir w !! hexId) as [h|], context as [ctx|];
      try apply journal_extends_refl. apply logStep_extends.
  - intros fromHexId edgeId context.
    destruct (hexDir w !! fromHexId) as [h|] eqn:Hsource;
      [|rewrite traverse_source_missing by done; apply journal_extends_refl].
    destruct (List.find (λ e, String.eqb (edge_id e) edgeId) (edges h)) as [edge|] eqn:Hedge;
      [|rewrite (traverse_edge_missing _ _ _ _ _ _ Hsource Hedge);
        apply journal_extends_refl].
    rewrite (traverse_edge_found _ _ _ _ _ _ _ Hsource Hedge).
    destruct (evaluateCondition (when edge) context) as [[]|];
      try apply journal_extends_refl. apply logStep_extends.
  - intros hexId incoming context. rewrite deposit_unfold.
    destruct (hexDir w !! hexId) as [h|]; [|apply journal_extends_refl].
    destruct (write_ok env); [|apply journal_extends_refl].
    destruct context as [ctx|]; [|by split].
    apply (journal_extends_with_hex (hex_id h)
             (with_data env h (merge_data (data (contents h)) incoming))).
    apply logStep_extends.
Qed.



(** ** [deposit] and [createHex] against the store *)

Lemma with_data_with_data env h d1 d2 :
  with_data env (with_data env h d1) d2 = with_data env h d2.
Proof. done. Qed.

(** X19: a deposit can be read back.  For a hex stored under its own id,
    [deposit] returns [true] when the write succeeds; [enter] then returns
    the hex with the merged data and the new [updated] stamp, all other
    fields as they were, and every other hex file is untouched.  When the
    write fails, [deposit] throws, and nothing is changed or journaled. *)
Theorem deposit_then_enter env hexId incoming context w h :
  hexDir w !! hexId = Some h →
  hex_id h = hexId →
  (write_ok env = true →
   ∃ w', deposit env hexId incoming context w = (Ret true, w') ∧
         (enter env hexId None w').1 =
           Ret (Some (with_data env h (merge_data (data (contents h)) incoming))) ∧
         ∀ id, id ≠ hexId → hexDir w' !! id = hexDir w !! id) ∧
  (write_ok env = false →
   deposit env hexId incoming context w = (Throw IOError, w)).
Proof.
  intros Hhex Hid. rewrite deposit_unfold, Hhex. split; intros ->; [|done].
  cbv zeta.
  destruct context as [ctx|]; rewrite ?logStep_unfold; eexists; (split; [done|]);
    rewrite enter_unfold; cbn [hexDir snd fst]; rewrite Hid, lookup_insert_eq;
    (split; [done|]); intros id Hne; by rewrite lookup_insert_ne.
Qed.

Lemma deposit_then_enter_witness :
  ∃ w', deposit calm_env "code-standards" (VObj {[ "y" := VNum 2 ]})
          (Some report_context) graph_world = (Ret true, w') ∧
        ∃ h, (enter calm_env "code-standards" None w').1 = Ret (Some h) ∧
             data (contents h) = VObj {[ "x" := VNum 1; "y" := VNum 2 ]} ∧
             updated h = now calm_env.
Proof.
  destruct (deposit_then_enter calm_env "code-standards" (VObj {[ "y" := VNum 2 ]})
              (Some report_context) graph_world
              (sample_hex "code-standards" "Code Standards" ["naming patterns"] ["code"]
                 [ sample_edge "to-testing" "testing-qa" (intent_guard "testing strategy") None;
                   sample_edge "to-crm" "external:salesforce" (intent_guard "update crm")
                     (Some abc_transform) ]
                 (VObj {[ "x" := VNum 1 ]}))) as [Hok _]; [reflexivity..|].
  destruct (Hok eq_refl) as (w' & Hrun & Hread & _).
  exists w'. split; [exact Hrun|]. eexists. split; [exact Hread|]. split; reflexivity.
Defined.

(** X20: [deposit] writes the hex under the id found inside the record, not
    under the id it was called with.  When a file holds a record of another
    id, [deposit] still returns [true], the file it read is left as it was
    — reading it back shows no deposit — and the file named by the record's
    id is overwritten. *)
Theorem deposit_follows_record_id env hexId incoming w h :
  hexDir w !! hexId = Some h →
  hex_id h ≠ hexId →
  write_ok env = true →
  ∃ w', deposit env hexId incoming None w = (Ret true, w') ∧
        hexDir w' !! hexId = Some h ∧
        hexDir w' !! hex_id h =
          Some (with_data env h (merge_data (data (contents h)) incoming)).
Proof.
  intros Hhex Hid Hok. rewrite deposit_unfold, Hhex, Hok. eexists. split; [done|]. simpl.
  by rewrite lookup_insert_ne, lookup_insert_eq.
Qed.

Lemma deposit_follows_record_id_witness :
  ∃ w', deposit calm_env "copy-of-notes" (VArr [VNum 3]) None
          (with_hex "copy-of-notes"
             (sample_hex "notes" "Notes" [] [] [] (VArr [VNum 1])) graph_world)
        = (Ret true, w') ∧
        (data ∘ contents) <$> hexDir w' !! "copy-of-notes" = Some (VArr [VNum 1]) ∧
        (data ∘ contents) <$> hexDir w' !! "notes" = Some (VArr [VNum 1; VNum 3]).
Proof.
  destruct (deposit_follows_record_id calm_env "copy-of-notes" (VArr [VNum 3])
              (with_hex "copy-of-notes"
                 (sample_hex "notes" "Notes" [] [] [] (VArr [VNum 1])) graph_world)
              (sample_hex "notes" "Notes" [] [] [] (VArr [VNum 1])))
    as (w' & Hrun & Hread & Hwritten); [reflexivity|done|reflexivity|].
  exists w'. split; [exact Hrun|]. rewrite Hread.
  change "notes" with (hex_id (sample_hex "notes" "Notes" [] [] [] (VArr [VNum 1]))).
  rewrite Hwritten. split; reflexivity.
Defined.

Lemma merge_data_assoc existing d1 d2 :
  (isArray existing && isArray d1 && isArray d2 = true) ∨
  (∃ m0 m1 m2, existing = VObj m0 ∧ d1 = VObj m1 ∧ d2 = VObj m2) →
  merge_data (merge_data existing d1) d2 = merge_data existing (merge_data d1 d2).
Proof.
  intros [Harrays|(m0 & m1 & m2 & -> & -> & ->)].
  - destruct existing, d1, d2; try done. unfold merge_data. cbn [isArray andb elements_of].
    f_equal. symmetry. apply app_assoc.
  - unfold merge_data. simpl. by rewrite (assoc_L (∪)).
Qed.

(** X21: deposits of one kind compose.  On a hex stored under its own id,
    depositing two arrays one after the other onto an array, or two objects
    onto an object, leaves the store as a single deposit of the two merged
    ([d1] then [d2] concatenated, or [d2] spread over [d1]) does. *)
Theorem deposits_compose env hexId d1 d2 w h :
  hexDir w !! hexId = Some h →
  hex_id h = hexId →
  (isArray (data (contents h)) && isArray d1 && isArray d2 = true) ∨
  (∃ m0 m1 m2, data (contents h) = VObj m0 ∧ d1 = VObj m1 ∧ d2 = VObj m2) →
  (deposit env hexId d1 None ≫= λ _, deposit env hexId d2 None) w
  = deposit env hexId (merge_data d1 d2) None w.
Proof.
  intros Hhex Hid Hkind.
  unfold mbind at 1, m_bind. rewrite !deposit_unfold, Hhex.
  destruct (write_ok env) eqn:Hok; [|done]. simpl.
  rewrite deposit_unfold. simpl. rewrite Hid, lookup_insert_eq, Hok. simpl.
  rewrite Hid, insert_insert_eq, with_data_with_data.
  by rewrite merge_data_assoc.
Qed.

Lemma deposits_compose_witness :
  (deposit calm_env "code-standards" (VObj {[ "y" := VNum 2 ]}) None ≫=
     λ _, deposit calm_env "code-standards" (VObj {[ "x" := VNum 5 ]}) None) graph_world
  = deposit calm_env "code-standards"
      (merge_data (VObj {[ "y" := VNum 2 ]}) (VObj {[ "x" := VNum 5 ]})) None graph_world.
Proof.
  apply (deposits_compose calm_env "code-standards" (VObj {[ "y" := VNum 2 ]})
           (VObj {[ "x" := VNum 5 ]}) graph_world
           (sample_hex "code-standards" "Code Standards" ["naming patterns"] ["code"]
              [ sample_edge "to-testing" "testing-qa" (intent_guard "testing strategy") None;
                sample_edge "to-crm" "external:salesforce" (intent_guard "update crm")
                  (Some abc_transform) ]
              (VObj {[ "x" := VNum 1 ]}))); [reflexivity..|].
  right. by eexists _, _, _.
Defined.

Lemma createHex_unfold env h w :
  createHex env h w =
  if write_ok env then (Ret (stamped env h), with_hex (hex_id h) (stamped env h) w)
  else (Throw IOError, w).
Proof.
  unfold createHex, mbind, m_bind, saveHex, mret, m_ret, with_hex. simpl.
  by destruct (write_ok env).
Qed.

(** X22: [createHex] stamps [created] and [updated] with the current time
    and writes the hex under its id, whatever its edges point to.  When the
    write succeeds it returns the stamped hex, [getHex] reads it back, a hex
    already stored under that id is replaced wholesale, and nothing else
    changes; when the write fails it throws and the world is unchanged. *)
Theorem createHex_then_getHex env h w :
  (write_ok env = true →
   ∃ w', createHex env h w = (Ret (stamped env h), w') ∧
         (getHex (hex_id h) w').1 = Ret (Some (stamped env h)) ∧
         (∀ id, id ≠ hex_id h → hexDir w' !! id = hexDir w !! id) ∧
         journeys w' = journeys w ∧ journeyLogFile w' = journeyLogFile w) ∧
  (write_ok env = false → createHex env h w = (Throw IOError, w)).
Proof.
  rewrite createHex_unfold. split; intros ->; [|done].
  eexists. split; [done|]. unfold getHex. simpl. rewrite lookup_insert_eq.
  split_and!; [done| |done..]. intros id Hid. by rewrite lookup_insert_ne.
Qed.

Lemma createHex_then_getHex_witness :
  createHex failing_disk (sample_hex "notes" "Notes" [] [] [] VNull) graph_world
  = (Throw IOError, graph_world) ∧
  ∃ w', createHex calm_env (sample_hex "code-standards" "Rewritten" [] [] [] VNull)
          graph_world
        = (Ret (stamped calm_env (sample_hex "code-standards" "Rewritten" [] [] [] VNull)),
           w') ∧
        (data ∘ contents) <$> hexDir w' !! "code-standards" = Some VNull.
Proof.
  split.
  - by apply createHex_then_getHex.
  - destruct (createHex_then_getHex calm_env
                (sample_hex "code-standards" "Rewritten" [] [] [] VNull) graph_world)
      as [Hok _].
    destruct (Hok eq_refl) as (w' & Hrun & Hread & _).
    exists w'. split; [exact Hrun|].
    unfold getHex in Hread. simpl in Hread. injection Hread as ->. reflexivity.
Defined.

(** ** More on [query] *)

Local Open Scope Qc_scope.

Lemma Qc_of_nat_0 : Qc_of_nat 0 = 0.
Proof. unfold Qc_of_nat. change (Z.of_nat 0) with 0%Z. apply Z2Qc_inj_0. Qed.

Lemma score_hints_matched expandedIntent hints matched0 score0 matched score1 :
  for_of hints (score_hint expandedIntent) (matched0, score0) = Ret (matched, score1) →
  ∃ added, matched = matched0 ++ added ∧ added `sublist_of` hints ∧
           score0 + Qc_of_nat (length added) ≤ score1.
Proof.
  revert matched0 score0. induction hints as [|hint hints IH]; intros matched0 score0; simpl.
  - intros [= <- <-]. exists []. rewrite app_nil_r. split_and!; [done..|].
    cbn [length]. by rewrite Qc_of_nat_0, Qcplus_0_r.
  - destruct (score_hint _ _ hint) as [[m s]|] eqn:Hhint; simpl; [|done].
    intros (added & -> & Hsub & Hscore)%IH.
    apply score_hint_Ret in Hhint as (eh & _ & Hacc). simpl in Hacc.
    case_bool_decide as Hpos; injection Hacc as -> ->.
    + exists (hint :: added). rewrite <-app_assoc. split_and!; [done|by constructor|].
      etrans; [|exact Hscore]. simpl length.
      rewrite <-Qcplus_assoc. apply Qcplus_le_mono_l.
      unfold Qc_of_nat. rewrite <-!Z2Qc_inj_add, <-Z2Qc_inj_le. lia.
    + exists added. split_and!; [done|by constructor|done].
Qed.

Lemma query_loop_sublist expandedIntent hexes results0 results :
  for_of hexes (score_hex expandedIntent) results0 = Ret results →
  ∃ added, results = results0 ++ added ∧ hex <$> added `sublist_of` hexes ∧
           Forall (λ r, matchedHints r `sublist_of` entryHints (hex r) ∧
                        Qc_of_nat (length (matchedHints r)) ≤ score r) added.
Proof.
  revert results0. induction hexes as [|h hexes IH]; intros results0; simpl.
  - intros [= <-]. exists []. by rewrite app_nil_r.
  - destruct (score_hex expandedIntent results0 h) as [results1|] eqn:Hturn; simpl; [|done].
    intros (added & -> & Hsub & Hall)%IH.
    apply score_hex_Ret in Hturn as (m & s & total & Hhints & Htotal & ->).
    apply score_hints_matched in Hhints as (madd & -> & Hmsub & Hscore).
    rewrite Qcplus_0_l in Hscore.
    case_decide.
    + eexists (_ :: added). rewrite <-app_assoc. split_and!; [done|by constructor|].
      constructor; [|done]. simpl. split; [done|]. by trans s.
    + exists added. split_and!; [done|by constructor|done].
Qed.

(** X23: [query] returns stored hexes, none more often than it is stored;
    the matched hints of a result are entry hints of its hex, in their
    order, and its score is at least their number. *)
Theorem query_results_come_from_store intentText limit w rs w' :
  query intentText limit w = (Ret rs, w') →
  hex <$> rs ⊆+ (map_to_list (hexDir w)).*2 ∧
  Forall (λ r, matchedHints r `sublist_of` entryHints (hex r) ∧
               Qc_of_nat (length (matchedHints r)) ≤ score r) rs.
Proof.
  rewrite query_unfold.
  destruct (expandWithSynonyms _) as [ei|]; simpl; [|done].
  destruct (for_of _ _ _) as [results|] eqn:Hloop; simpl; [|done].
  intros [= <- <-].
  apply query_loop_sublist in Hloop as (added & -> & Hsub & Hall). simpl.
  rewrite slice_from_start. split.
  - trans (hex <$> added); [|by apply sublist_submseteq].
    apply fmap_submseteq. trans (js_sort by_score added).
    + apply sublist_submseteq, sublist_take.
    + by rewrite js_sort_Permutation.
  - apply Forall_take. by rewrite js_sort_Permutation.
Qed.

Lemma query_results_come_from_store_witness :
  ∃ rs, query "button styling" None ranking_world = (Ret rs, ranking_world) ∧
        (length rs ≤ 3)%nat ∧
        Forall (λ r, matchedHints r `sublist_of` entryHints (hex r)) rs.
Proof.
  assert (Forall plain_text (query_texts "button styling" ranking_world)) as Hplain.
  { apply (bool_decide_unpack _). by vm_compute. }
  destruct (proj2 (query_returns "button styling" None ranking_world) Hplain) as [rs Hrs].
  exists rs. split; [exact Hrs|].
  destruct (query_results_come_from_store _ _ _ _ _ Hrs) as [Hstored Hhints].
  split.
  - apply submseteq_length in Hstored. by rewrite !length_fmap in Hstored.
  - eapply Forall_impl; [exact Hhints|]. by intros r [? _].
Defined.

Lemma Qc_of_nat_0_mult q : Qc_of_nat 0 * q = 0.
Proof. rewrite Qc_of_nat_0. apply Qcmult_0_l. Qed.

Lemma score_tags_silent expandedIntent tags s :
  (∀ tag, tag ∈ tags → toLowerCase tag ∉ expandedIntent) →
  score_tags expandedIntent tags s = s.
Proof.
  unfold score_tags. revert s. induction tags as [|tag tags IH]; intros s Htags; simpl; [done|].
  rewrite bool_decide_eq_false_2 by (apply Htags; left).
  apply IH. intros t Ht. apply Htags. by right.
Qed.

Lemma score_hints_silent expandedIntent hints acc r :
  (∀ hint expanded, hint ∈ hints →
                    expandWithSynonyms (tokenize hint) = Ret expanded →
                    wordOverlap expandedIntent expanded = 0%nat) →
  for_of hints (score_hint expandedIntent) acc = Ret r → r = acc.
Proof.
  revert acc. induction hints as [|hint hints IH]; intros acc Hsilent; simpl.
  - by intros [= <-].
  - destruct (score_hint expandedIntent acc hint) as [acc'|] eqn:Hhint; simpl; [|done].
    apply score_hint_Ret in Hhint as (eh & Heh & ->).
    rewrite (Hsilent hint eh) by (done || left). simpl.
    apply IH. intros h e Hin. apply Hsilent. by right.
Qed.

Lemma score_hex_silent expandedIntent results h results' :
  silent expandedIntent h →
  score_hex expandedIntent results h = Ret results' → results' = results.
Proof.
  intros [Htexts Htags]. unfold score_hex, hex_texts in *.
  destruct (for_of _ _ _) as [[m s]|] eqn:Hhints; simpl; [|done].
  apply score_hints_silent in Hhints as [= -> ->].
  2:{ intros hint e Hin. apply Htexts, elem_of_app. by left. }
  destruct (expandWithSynonyms (tokenize (name h))) as [en|] eqn:Hname; simpl; [|done].
  rewrite (Htexts (name h) en), Qc_of_nat_0_mult, Qcplus_0_r; [|set_solver|done].
  destruct (truthy_string (description h)) as [d|] eqn:Hd; simpl.
  - destruct (expandWithSynonyms (tokenize d)) as [ed|] eqn:Hdesc; simpl; [|done].
    rewrite (Htexts d ed), Qc_of_nat_0_mult, Qcplus_0_r; [|set_solver|done].
    rewrite score_tags_silent by done. by intros [= <-].
  - rewrite score_tags_silent by done. by intros [= <-].
Qed.

(** X24: [query] returns a hex only if something of it answers the intent:
    an entry hint, the name or the description shares a word with the
    expanded intent, or a tag, in lowercase, is one of its words.  An intent
    without tokens — empty, or made of words of one or two characters —
    therefore finds nothing. *)
Theorem query_returns_only_matches intentText limit w rs w' :
  query intentText limit w = (Ret rs, w') →
  (∀ expandedIntent r,
     expandWithSynonyms (tokenize intentText) = Ret expandedIntent →
     r ∈ rs → ¬ silent expandedIntent (hex r)) ∧
  (tokenize intentText = [] → rs = []).
Proof.
  rewrite query_unfold.
  destruct (expandWithSynonyms _) as [ei|] eqn:Hei; simpl; [|done].
  destruct (for_of _ _ _) as [results|] eqn:Hloop; simpl; [|done].
  intros [= <- <-].
  assert (Forall (λ r, ¬ silent ei (hex r)) results) as Hall.
  { revert Hloop. apply for_of_invariant; [|done].
    intros results0 h results1 _ Hbefore Hturn.
    pose proof Hturn as (m & s & total & _ & _ & ->)%score_hex_Ret.
    case_decide; [|done]. apply Forall_app. split; [done|].
    apply Forall_singleton. simpl. intros Hsilent.
    apply (score_hex_silent _ _ _ _ Hsilent) in Hturn.
    apply (f_equal length) in Hturn. rewrite length_app in Hturn. simpl in Hturn.
    clear -Hturn. lia. }
  split.
  - intros ? r [= <-] Hr. rewrite slice_from_start in Hr.
    apply subseteq_take in Hr. rewrite js_sort_Permutation in Hr.
    by eapply Forall_forall in Hall.
  - intros Htokens. rewrite Htokens in Hei.
    unfold expandWithSynonyms, expand_with in Hei. simpl in Hei. injection Hei as <-.
    destruct results as [|r results];
      [rewrite slice_from_start; by destruct (Z.to_nat _)|].
    apply Forall_cons in Hall as [Hr _]. destruct Hr. split.
    + intros text e _ _. done.
    + intros tag _. apply not_elem_of_nil.
Qed.

Lemma query_returns_only_matches_witness :
  query "Q4 of it" None ranking_world = (Ret [], ranking_world).
Proof.
  assert (Forall plain_text (query_texts "Q4 of it" ranking_world)) as Hplain.
  { apply (bool_decide_unpack _). by vm_compute. }
  destruct (proj2 (query_returns "Q4 of it" None ranking_world) Hplain) as [rs Hrs].
  destruct (query_returns_only_matches _ _ _ _ _ Hrs) as [_ Hempty].
  rewrite Hrs. by rewrite Hempty.
Defined.

Local Close Scope Qc_scope.

(** ** Reading operations *)

(** X25: only [deposit] and [createHex] write hex files.  [query],
    [nextSteps] and [getJourneyLog] leave the whole world as it was, whether
    they return or throw, and [enter] and [traverse] leave every hex file
    as it was. *)
Theorem reads_do_not_write env w :
  (∀ intentText limit, (query intentText limit w).2 = w) ∧
  (∀ hexId context, (nextSteps hexId context w).2 = w) ∧
  (∀ limit, (getJourneyLog limit w).2 = w) ∧
  (∀ hexId context, hexDir (enter env hexId context w).2 = hexDir w) ∧
  (∀ fromHexId edgeId context,
     hexDir (traverse env fromHexId edgeId context w).2 = hexDir w).
Proof.
  split_and!.
  - intros intentText limit. by rewrite query_unfold.
  - intros id context. rewrite nextSteps_unfold. by destruct (hexDir w !! id).
  - intros limit. rewrite getJourneyLog_unfold. by destruct (journeyLogFile w).
  - intros id context. rewrite enter_unfold.
    destruct (hexDir w !! id), context; try done. by rewrite logStep_unfold.
  - intros fromHexId edgeId context.
    destruct (hexDir w !! fromHexId) as [h|] eqn:Hsource;
      [|by rewrite traverse_source_missing].
    destruct (List.find (λ e, String.eqb (edge_id e) edgeId) (edges h)) as [edge|] eqn:Hedge;
      [|by rewrite (traverse_edge_missing _ _ _ _ _ _ Hsource Hedge)].
    rewrite (traverse_edge_found _ _ _ _ _ _ _ Hsource Hedge).
    destruct (evaluateCondition (when edge) context) as [[]|]; try done.
    simpl. by rewrite logStep_unfold.
Qed.

(** X26: with a positive limit (100 when omitted), [getJourneyLog] returns
    the last entries of the log file, in order: all of them when the log
    holds no more than the limit, the limit most recent ones otherwise; a
    missing file gives the empty list.  With a negative limit [-n] it
    returns the log without its [n] oldest entries. *)
Theorem getJourneyLog_recent_entries limit w :
  let entries := default [] (journeyLogFile w) in
  let n := default 100%Z limit in
  ((0 < n)%Z →
   ∃ recent, (getJourneyLog limit w).1 = Ret recent ∧
             recent `suffix_of` entries ∧
             length recent = length entries `min` Z.to_nat n) ∧
  ((n < 0)%Z → (getJourneyLog limit w).1 = Ret (drop (Z.to_nat (- n)) entries)).
Proof.
  simpl. rewrite getJourneyLog_unfold. split.
  - intros Hn. exists (drop (length (default [] (journeyLogFile w))
                             - Z.to_nat (default 100%Z limit))
                        (default [] (journeyLogFile w))).
    split_and!.
    + destruct (journeyLogFile w) as [entries|]; simpl; [|done].
      by rewrite slice_last.
    + apply suffix_drop.
    + rewrite length_drop. lia.
  - intros Hn. destruct (journeyLogFile w) as [entries|]; simpl; [|by rewrite drop_nil].
    unfold slice, relative_index, default_log_limit.
    destruct (Z.ltb_spec (- default 100%Z limit) 0); [lia|].
    rewrite take_ge by (rewrite length_drop; lia).
    f_equal. destruct (Z.min_spec (- default 100%Z limit) (Z.of_nat (length entries)))
      as [[_ ->]|[Hle ->]]; [done|].
    rewrite Nat2Z.id. rewrite !drop_ge; [done|lia..].
Qed.

Lemma getJourneyLog_recent_entries_witness :
  (getJourneyLog (Some 2%Z)
     {| hexDir := ∅; journeys := ∅;
        journeyLogFile := Some [sample_entry "a"; sample_entry "b"; sample_entry "c"] |}).1
  = Ret [sample_entry "b"; sample_entry "c"].
Proof.
  destruct (getJourneyLog_recent_entries (Some 2%Z)
              {| hexDir := ∅; journeys := ∅;
                 journeyLogFile := Some [sample_entry "a"; sample_entry "b";
                                         sample_entry "c"] |}) as [Hpositive _].
  destruct Hpositive as (recent & Hrun & _); [simpl; lia|].
  rewrite Hrun. rewrite getJourneyLog_unfold in Hrun. simpl in Hrun.
  injection Hrun as <-. reflexivity.
Defined.

(** ** The tool surface *)

Lemma anonymous_only_refl w : anonymous_only w w.
Proof. split; [done|]. exists []. by rewrite app_nil_r. Qed.

Lemma logStep_anonymous env intentArg payloadArg step w :
  anonymous_only w (logStep env (tool_context intentArg payloadArg) step w).2.
Proof.
  rewrite logStep_unfold. split; simpl.
  - intros id Hid. by apply recorded_other.
  - unfold appended. destruct (append_ok env); simpl.
    + eexists [_]. split; [done|]. by repeat constructor.
    + exists []. by rewrite app_nil_r.
Qed.

Lemma hive_enter_world env hexId intentArg payloadArg w :
  (hive_enter env hexId intentArg payloadArg w).2
  = (enter env hexId
       match truthy_string intentArg, payloadArg with
       | None, None => None
       | _, _ => Some (tool_context intentArg payloadArg)
       end w).2.
Proof.
  unfold hive_enter. cbv zeta. unfold mbind at 1, m_bind.
  rewrite enter_unfold.
  by destruct (hexDir w !! hexId), (truthy_string intentArg), payloadArg.
Qed.

Lemma hive_traverse_unfold env hexId edgeId intentArg payloadArg w :
  hive_traverse env hexId edgeId intentArg payloadArg w
  = match traverse env hexId edgeId (tool_context intentArg payloadArg) w with
    | (Ret result, w') => (Ret {| body := result; isError := negb (success result) |}, w')
    | (Throw e, w') => (Throw e, w')
    end.
Proof. done. Qed.

Lemma traverse_anonymous env hexId edgeId intentArg payloadArg w :
  anonymous_only w (traverse env hexId edgeId (tool_context intentArg payloadArg) w).2.
Proof.
  destruct (hexDir w !! hexId) as [h|] eqn:Hsource;
    [|rewrite traverse_source_missing by done; apply anonymous_only_refl].
  destruct (List.find (λ e, String.eqb (edge_id e) edgeId) (edges h)) as [edge|] eqn:Hedge;
    [|rewrite (traverse_edge_missing _ _ _ _ _ _ Hsource Hedge); apply anonymous_only_refl].
  rewrite (traverse_edge_found _ _ _ _ _ _ _ Hsource Hedge).
  destruct (evaluateCondition (when edge) _) as [[]|]; try apply anonymous_only_refl.
  apply logStep_anonymous.
Qed.

(** X27: a client of the tools cannot name its journey.  The handlers never
    pass an [origin], so whatever [hive_enter] and [hive_traverse] record is
    filed under the one journey "anonymous": every other journey is left as
    it was and every entry added to the log file carries the journey id
    "anonymous".  [hive_next_steps] changes nothing at all. *)
Theorem tool_steps_are_anonymous env hexId intentArg payloadArg w :
  anonymous_only w (hive_enter env hexId intentArg payloadArg w).2 ∧
  (∀ edgeId, anonymous_only w (hive_traverse env hexId edgeId intentArg payloadArg w).2) ∧
  (hive_next_steps hexId intentArg payloadArg w).2 = w.
Proof.
  split_and!.
  - rewrite hive_enter_world, enter_unfold.
    destruct (hexDir w !! hexId) as [h|];
      [|destruct (match truthy_string intentArg, payloadArg with
                  | None, None => None
                  | _, _ => Some (tool_context intentArg payloadArg)
                  end); apply anonymous_only_refl].
    destruct (truthy_string intentArg), payloadArg;
      try apply logStep_anonymous. apply anonymous_only_refl.
  - intros edgeId. rewrite hive_traverse_unfold.
    pose proof (traverse_anonymous env hexId edgeId intentArg payloadArg w) as Hanon.
    by destruct (traverse _ _ _ _ _) as [[result|e] w'].
  - unfold hive_next_steps. cbv zeta. unfold mbind at 1, m_bind.
    rewrite nextSteps_unfold. destruct (hexDir w !! hexId) as [h|]; [|done].
    by destruct (for_of _ _ _).
Qed.

Lemma hive_deposit_unfold env hexId incoming w :
  hive_deposit env hexId incoming w
  = match deposit env hexId incoming None w with
    | (Ret ok, w') => (Ret {| body := (ok, hexId); isError := negb ok |}, w')
    | (Throw e, w') => (Throw e, w')
    end.
Proof. done. Qed.

(** X28: deposits made through the tools leave no trace in the journal.
    [hive_deposit] passes no context: it leaves the journeys and the log
    file as they were, also when it stores the data, and it reports an
    error exactly when the hex does not exist (a failing write is thrown).
    A [hive_enter] with no payload and no or an empty intent changes
    nothing at all. *)
Theorem tool_deposit_is_not_journaled env hexId incoming w :
  let run := hive_deposit env hexId incoming w in
  journeys run.2 = journeys w ∧
  journeyLogFile run.2 = journeyLogFile w ∧
  match hexDir w !! hexId with
  | None => run = (Ret {| body := (false, hexId); isError := true |}, w)
  | Some h =>
      if write_ok env
      then run.1 = Ret {| body := (true, hexId); isError := false |} ∧
           hexDir run.2 = <[hex_id h := with_data env h (merge_data (data (contents h)) incoming)]>
                            (hexDir w)
      else run = (Throw IOError, w)
  end ∧
  (∀ intentArg, truthy_string intentArg = None →
                (hive_enter env hexId intentArg None w).2 = w).
Proof.
  simpl. rewrite hive_deposit_unfold, deposit_unfold.
  assert (∀ intentArg, truthy_string intentArg = None →
                       (hive_enter env hexId intentArg None w).2 = w) as Henter.
  { intros intentArg Hintent. rewrite hive_enter_world, Hintent, enter_unfold.
    by destruct (hexDir w !! hexId). }
  destruct (hexDir w !! hexId) as [h|]; [|done].
  by destruct (write_ok env).
Qed.

Lemma tool_deposit_is_not_journaled_witness :
  journeys (hive_deposit calm_env "code-standards" (VObj {[ "y" := VNum 2 ]}) graph_world).2
  = ∅ ∧
  (hive_enter calm_env "code-standards" (Some EmptyString) None graph_world).2 = graph_world.
Proof.
  pose proof (tool_deposit_is_not_journaled calm_env "code-standards"
                (VObj {[ "y" := VNum 2 ]}) graph_world) as Hrun.
  cbv zeta in Hrun. destruct Hrun as (Hjourneys & _ & _ & Henter).
  split; [exact Hjourneys|]. apply Henter. reflexivity.
Defined.

Lemma created_edge_found (es : list EdgeArg) e :
  NoDup (arg_edge_id <$> es) → e ∈ es →
  List.find (λ edge, String.eqb (edge_id edge) (arg_edge_id e)) (edge_of_arg <$> es)
  = Some (edge_of_arg e).
Proof.
  intros Hids He.
  apply (find_edge_NoDup (edge_of_arg <$> es) (edge_of_arg e)).
  - by rewrite <-list_fmap_compose.
  - by apply list_elem_of_fmap_2.
Qed.

(** X29: edges created through [hive_create_hex] carry the payload across
    unchanged.  The tool takes no [transform] for an edge; so, once the hex
    is written, [hive_traverse] over any of its edges whose guard holds
    succeeds with the destination of the edge and with exactly the payload
    the client sent. *)
Theorem created_edges_carry_payload_unchanged env env' args es e intentArg payloadArg w :
  write_ok env = true →
  arg_edges args = Some es →
  NoDup (arg_edge_id <$> es) →
  e ∈ es →
  evaluateCondition (arg_when e) (tool_context intentArg payloadArg) = Ret true →
  (hive_traverse env' (arg_id args) (arg_edge_id e) intentArg payloadArg
     (hive_create_hex env args w).2).1
  = Ret {| body := {| success := true; destination := arg_to e;
                      result_payload := from_option VObj VUndefined payloadArg;
                      external := Some (String.prefix "external:" (arg_to e));
                      error := None |};
           isError := false |}.
Proof.
  intros Hok Hedges Hids He Hguard.
  unfold hive_create_hex. unfold mbind at 1, m_bind.
  rewrite createHex_unfold, Hok. simpl.
  rewrite hive_traverse_unfold.
  rewrite (traverse_edge_found env' (arg_id args) (arg_edge_id e) _ _
             (stamped env (hex_of_args args)) (edge_of_arg e)).
  - simpl. by rewrite Hguard.
  - simpl. by rewrite lookup_insert_eq.
  - simpl. rewrite Hedges. simpl. by apply created_edge_found.
Qed.

Lemma created_edges_carry_payload_unchanged_witness :
  (hive_traverse calm_env "inbox" "to-archive" (Some "file it") (Some carried_message)
     (hive_create_hex calm_env inbox_args junction_world).2).1
  = Ret {| body := {| success := true; destination := "archive";
                      result_payload := VObj carried_message;
                      external := Some false; error := None |};
           isError := false |}.
Proof.
  apply (created_edges_carry_payload_unchanged calm_env calm_env inbox_args
           [ {| arg_edge_id := "to-archive"; arg_to := "archive";
                arg_edge_description := "File the message"; arg_priority := 3;
                arg_when := data_guard (Some ["message"]) None |} ]
           {| arg_edge_id := "to-archive"; arg_to := "archive";
              arg_edge_description := "File the message"; arg_priority := 3;
              arg_when := data_guard (Some ["message"]) None |}
           (Some "file it") (Some carried_message) junction_world).
  - reflexivity.
  - reflexivity.
  - apply (bool_decide_unpack _). by vm_compute.
  - apply list_elem_of_singleton. reflexivity.
  - by vm_compute.
Defined.
